(** * AML: bias-evaluation inference driver and top-k re-scoring wrapper

    Shallow embedding of
      - [src/refine_lm/model_BERT.py]  (class [CustomBERTModel]), and
      - [src/inference.py]             ([parse_args] and [main]).

    Tensor entries are modelled as real numbers: the arithmetic of the
    re-weighting layer and of softmax is the exact one, rounding of the
    machine floats is not part of the model. *)

From Stdlib Require Import List Bool Arith ZArith Lia.
From Stdlib Require String Ascii.
From Stdlib Require Import Permutation Sorted.
From Stdlib Require Import Reals Lra.
Import ListNotations.

(* ================================================================== *)
(** * Part I: [refine_lm/model_BERT.py] *)
(* ================================================================== *)

Module ModelBERT.

Local Open Scope R_scope.

(** ** Tensors *)

(** A tensor of rank 1, 2 and 3, in row-major nesting.  The driver only
    handles [sentence, word, probable token] tensors. *)
Definition Tensor1 := list R.
Definition Tensor2 := list Tensor1.
Definition Tensor3 := list Tensor2.

(** [t[i, p, v]]; entries that do not exist read as [0]. *)
Definition get3 (t : Tensor3) (i p v : nat) : R :=
  nth v (nth p (nth i t []) []) 0.

(** The shape of a tensor: all sentences have [S] rows of [V] entries. *)
Definition has_shape (t : Tensor3) (B S V : nat) : Prop :=
  length t = B /\
  forall t2, In t2 t ->
    length t2 = S /\ forall row, In row t2 -> length row = V.

(** [torch.zeros_like] *)
Definition zeros_like (t : Tensor3) : Tensor3 :=
  map (map (map (fun _ : R => 0))) t.

(** In-place update of one list cell; the list is unchanged when the index
    is outside of it (torch raises there; [forward] only writes at the
    indices [topk] returned for that very row, which are inside). *)
Fixpoint update {A : Type} (n : nat) (f : A -> A) (l : list A) : list A :=
  match l, n with
  | [], _ => []
  | x :: l', O => f x :: l'
  | x :: l', S n' => x :: update n' f l'
  end.

(** [t[i, p, v] = x] *)
Definition set3 (t : Tensor3) (i p v : nat) (x : R) : Tensor3 :=
  update i (update p (update v (fun _ => x))) t.

(** ** The tensor primitives used by [forward] *)

(** Sum of the entries of a vector. *)
Definition sum (l : list R) : R := fold_right Rplus 0 l.

(** Indices of the [True] entries of a boolean mask ([mask.nonzero()]),
    counted from [start]. *)
Fixpoint nonzero_from (start : nat) (mask : list bool) : list nat :=
  match mask with
  | [] => []
  | b :: mask' =>
      if b then start :: nonzero_from (S start) mask'
      else nonzero_from (S start) mask'
  end.

Definition nonzero (mask : list bool) : list nat := nonzero_from 0 mask.

(** [t[mask, :]] for a boolean mask over the rows of [t]: the rows at the
    [True] positions, in order.  Indexing with a mask whose length differs
    from the number of rows raises [IndexError]. *)
Definition bool_index (mask : list bool) (t : Tensor2) : option Tensor2 :=
  if Nat.eqb (length mask) (length t)
  then Some (map (fun p => nth p t []) (nonzero mask))
  else None.

(** Insertion of an (entry, index) pair into a list ordered by decreasing
    entry.  Among equal entries the inserted one goes first. *)
Fixpoint insert_desc (x : R * nat) (l : list (R * nat)) : list (R * nat) :=
  match l with
  | [] => [x]
  | y :: l' =>
      if Rle_dec (fst y) (fst x) then x :: l else y :: insert_desc x l'
  end.

Definition sort_desc (l : list (R * nat)) : list (R * nat) :=
  fold_right insert_desc [] l.

(** A row of logits with the vocabulary index of each entry. *)
Definition enumerate (row : Tensor1) : list (R * nat) :=
  combine row (seq 0 (length row)).

(** [row.topk(k)] on one row: the [k] largest entries in decreasing order,
    each with its index.  Ties are broken towards the lower index. *)
Definition topk_row (k : nat) (row : Tensor1) : list (R * nat) :=
  firstn k (sort_desc (enumerate row)).

(** [t.topk(k)] along the last dimension of a rank-2 slice [rows] of a
    tensor whose last dimension is that of [whole].  Torch raises when [k]
    exceeds the size of the last dimension, also when the slice has no
    row. *)
Definition topk (k : nat) (whole rows : Tensor2)
  : option (list Tensor1 * list (list nat)) :=
  if forallb (fun row => Nat.leb k (length row)) whole
  then Some (map (fun row => map fst (topk_row k row)) rows,
             map (fun row => map snd (topk_row k row)) rows)
  else None.

(** Dot product of two vectors. *)
Definition dot (u v : Tensor1) : R :=
  sum (map (fun ab => fst ab * snd ab) (combine u v)).

(** [nn.Linear]: [y_j = sum_i weight[j][i] * v[i] + bias[j]]. *)
Definition linear (weight : Tensor2) (bias : Tensor1) (v : Tensor1) : Tensor1 :=
  map (fun wb => dot (fst wb) v + snd wb) (combine weight bias).

(** [v.softmax(dim=-1)] on one row. *)
Definition softmax (v : Tensor1) : Tensor1 :=
  map (fun x => exp x / sum (map exp v)) v.

(** Column [c] of a matrix given by rows ([m[:, c]]). *)
Definition column {A : Type} (d : A) (c : nat) (m : list (list A)) : list A :=
  map (fun row => nth c row d) m.

(** [t[i, pos, idx] = vals] with index tensors [pos] and [idx] of equal
    length: entry [t] of [vals] goes to [t[i, pos[t], idx[t]]]. *)
Fixpoint index_put (t : Tensor3) (i : nat) (pos idx : list nat) (vals : list R)
  : Tensor3 :=
  match pos, idx, vals with
  | p :: pos', v :: idx', x :: vals' =>
      index_put (set3 t i p v x) i pos' idx' vals'
  | _, _, _ => t
  end.

(** ** The module *)

(** Token ids of a batch: one row per sentence. *)
Definition TokenIds := list (list Z).

Record CustomBERTModel := {
  mask_token_id : Z;                       (* self.tokenizer.mask_token_id *)
  bert : TokenIds -> option Tensor3;       (* self.bert; [None]: it raised *)
  topk_k : nat;                            (* self.topk *)
  batch_size : nat;                        (* self.batch_size *)
  out_weight : Tensor2;                    (* self.out.weight *)
  out_bias : Tensor1                       (* self.out.bias *)
}.

(** [nn.init.ones_] on a [k] by [k] matrix. *)
Definition ones (k : nat) : Tensor2 := repeat (repeat 1 k) k.

(** What [__init__] loads: the mask token id of the tokenizer of a
    pretrained model ([AutoTokenizer.from_pretrained(name).mask_token_id]),
    and the wrapped model [getattr(models, cls)(name, language=language)],
    given by what it returns on a batch of token ids. *)
Record Hub := {
  hub_mask_token_id : String.string -> Z;
  hub_model : String.string -> String.string -> String.string
              -> TokenIds -> option Tensor3
}.

(** [CustomBERTModel.__init__].  [nn.Linear(k, k)] draws its bias (of [k]
    entries) and its weight at random; the drawn bias is an argument, the
    weight is overwritten with ones. *)
Definition init (hub : Hub) (k batch : nat)
    (intrasentence_model pretrained_model_name language : String.string)
    (drawn_bias : Tensor1) : CustomBERTModel :=
  {| mask_token_id := hub_mask_token_id hub pretrained_model_name;
     bert := hub_model hub intrasentence_model pretrained_model_name language;
     topk_k := k;
     batch_size := batch;
     out_weight := ones k;
     out_bias := drawn_bias |}.

(** The inner loop of [forward]:
    [for k in range(indices.shape[-1]):
         inputs[i, j, indices[:,k]] = layer_output[:,k]] *)
Definition scatter (inputs : Tensor3) (i : nat) (j : list bool) (width : nat)
    (indices : list (list nat)) (layer_output : list Tensor1) : Tensor3 :=
  fold_left
    (fun inp c =>
       index_put inp i (nonzero j) (column 0%nat c indices) (column 0 c layer_output))
    (seq 0 width) inputs.

(** One iteration of the loop over the sentences of [forward]. *)
Definition forward_sentence (self : CustomBERTModel) (input_ids : TokenIds)
    (output : Tensor3) (inputs : Tensor3) (i : nat) : option Tensor3 :=
  match nth_error input_ids i with
  | None => None                                          (* IndexError *)
  | Some ids_i =>
      let masked_index := map (fun tok => Z.eqb tok (mask_token_id self)) ids_i in
      let j := masked_index in
      let output_i := nth i output [] in
      match bool_index j output_i with
      | None => None
      | Some logits =>
          match topk (topk_k self) output_i logits with
          | None => None
          | Some (values, indices) =>
              let output_values := map (linear (out_weight self) (out_bias self)) values in
              let layer_output := map softmax output_values in
              Some (scatter inputs i j (topk_k self) indices layer_output)
          end
      end
  end.

(** The loop [for i in range(len(output))], threading [inputs]. *)
Fixpoint forward_loop (self : CustomBERTModel) (input_ids : TokenIds)
    (output : Tensor3) (range : list nat) (inputs : Tensor3) : option Tensor3 :=
  match range with
  | [] => Some inputs
  | i :: range' =>
      match forward_sentence self input_ids output inputs i with
      | None => None
      | Some inputs' => forward_loop self input_ids output range' inputs'
      end
  end.

(** [CustomBERTModel.forward].  The wrapped model is called on [input_ids]
    alone. *)
Definition forward (self : CustomBERTModel) (input_ids : TokenIds)
    (attention_mask token_type_ids : option TokenIds) : option Tensor3 :=
  match bert self input_ids with
  | None => None
  | Some output =>
      let inputs := zeros_like output in
      forward_loop self input_ids output (seq 0 (length output)) inputs
  end.


(** ** Vocabulary for the statements about [forward] *)

(** Number of rows of sentence [i] and of entries of its row [p]. *)
Definition seq_len (t : Tensor3) (i : nat) : nat := length (nth i t []).

Definition row_len (t : Tensor3) (i p : nat) : nat :=
  length (nth p (nth i t []) []).

(** The mask [input_ids[i] == self.tokenizer.mask_token_id]. *)
Definition masked_index (self : CustomBERTModel) (input_ids : TokenIds) (i : nat)
  : list bool :=
  map (fun tok => Z.eqb tok (mask_token_id self)) (nth i input_ids []).

Definition is_masked (self : CustomBERTModel) (input_ids : TokenIds) (i p : nat)
  : bool :=
  nth p (masked_index self input_ids i) false.

(** The raw logits of the wrapped model at sentence [i], position [p]. *)
Definition logits_at (output : Tensor3) (i p : nat) : Tensor1 :=
  nth p (nth i output []) [].

(** The two results of [topk] for that row. *)
Definition topk_values (self : CustomBERTModel) (output : Tensor3) (i p : nat)
  : Tensor1 :=
  map fst (topk_row (topk_k self) (logits_at output i p)).

Definition topk_indices (self : CustomBERTModel) (output : Tensor3) (i p : nat)
  : list nat :=
  map snd (topk_row (topk_k self) (logits_at output i p)).

(** What [forward] computes from the top-k values of that row: the
    re-weighting layer followed by softmax. *)
Definition rescored (self : CustomBERTModel) (output : Tensor3) (i p : nat)
  : Tensor1 :=
  softmax (linear (out_weight self) (out_bias self) (topk_values self output i p)).

(** The input of [forward] fits the wrapped model's output: one sentence of
    [S] token ids per sentence of [output]. *)
Definition ids_shape (input_ids : TokenIds) (B S : nat) : Prop :=
  length input_ids = B /\ forall ids_i, In ids_i input_ids -> length ids_i = S.

(** Sentence [i] can be processed: it has token ids, as many as the wrapped
    model produced rows for it, and every row has at least [k] entries. *)
Definition sentence_ok (self : CustomBERTModel) (input_ids : TokenIds)
    (output : Tensor3) (i : nat) : Prop :=
  (i < length input_ids)%nat /\
  length (nth i input_ids []) = seq_len output i /\
  forall row, In row (nth i output []) -> (topk_k self <= length row)%nat.



(** ** A small wrapped model, for the examples *)

(** Three vocabulary entries; the logits at a position depend on its token. *)
Definition toy_mlm (input_ids : TokenIds) : option Tensor3 :=
  Some (map (map (fun tok => [IZR tok; 2; 1])) input_ids).

Section Toy.

Import String.

Definition toy_hub : Hub :=
  {| hub_mask_token_id := fun _ => 103%Z;
     hub_model := fun _ _ _ => toy_mlm |}.

(** A fresh model over [toy_mlm] with mask token 103, [k] re-scored logits
    and the bias left at zero. *)
Definition toy_model (k : nat) : CustomBERTModel :=
  init toy_hub k 16 "SwissBertForMLM"%string "ZurichNLP/swissbert-xlm-vocab"%string
       "en"%string (repeat 0 k).

End Toy.

(** One sentence with the mask token in the middle. *)
Definition toy_ids : TokenIds := [[5; 103; 7]%Z].

(** [b] may follow [a] in a decreasing list. *)
Definition desc (a b : R * nat) : Prop := fst b <= fst a.


(** One round of the scatter loop. *)
Definition scatter_step (i : nat) (pos : list nat) (indices : list (list nat))
    (layer_output : list Tensor1) (inp : Tensor3) (c : nat) : Tensor3 :=
  index_put inp i pos (column 0%nat c indices) (column 0 c layer_output).

(** ** Vocabulary for further statements *)

(** The checks sentence [i] has to pass for its iteration not to raise:
    [input_ids[i]] exists, the mask fits the rows of [output[i]], and
    [topk] finds [k] entries in the last dimension. *)
Definition sentence_check (self : CustomBERTModel) (input_ids : TokenIds)
    (output : Tensor3) (i : nat) : bool :=
  match nth_error input_ids i with
  | None => false
  | Some ids_i =>
      Nat.eqb (length ids_i) (length (nth i output []))
      && forallb (fun row => Nat.leb (topk_k self) (length row)) (nth i output [])
  end.



End ModelBERT.

(* ================================================================== *)
(** * Part II: [inference.py] *)
(* ================================================================== *)

Module Inference.

Import String Ascii.
Local Open Scope string_scope.
Local Open Scope Z_scope.

(** ** Python strings and paths *)

(** [s.split(sep)] for a one-character separator. *)
Fixpoint split (sep : ascii) (s : string) : list string :=
  match s with
  | EmptyString => [EmptyString]
  | String c s' =>
      if Ascii.eqb c sep then EmptyString :: split sep s'
      else match split sep s' with
           | [] => [String c EmptyString]
           | w :: ws => String c w :: ws
           end
  end.

(** [s.split(sep, 1)] when [sep] occurs in [s]: the text before and after
    its first occurrence. *)
Fixpoint partition (sep : ascii) (s : string) : option (string * string) :=
  match s with
  | EmptyString => None
  | String c s' =>
      if Ascii.eqb c sep then Some (EmptyString, s')
      else match partition sep s' with
           | Some (before, rest) => Some (String c before, rest)
           | None => None
           end
  end.

(** [sub in s] for a one-character [sub]. *)
Fixpoint contains (c : ascii) (s : string) : bool :=
  match s with
  | EmptyString => false
  | String c' s' => Ascii.eqb c' c || contains c s'
  end.

(** [s.endswith("/")] *)
Fixpoint ends_with_slash (s : string) : bool :=
  match s with
  | EmptyString => false
  | String c EmptyString => Ascii.eqb c "/"
  | String _ s' => ends_with_slash s'
  end.

(** [os.path.join(a, b)] on a POSIX system. *)
Definition path_join (a b : string) : string :=
  if String.prefix "/" b then b
  else if String.eqb a EmptyString || ends_with_slash a then a ++ b
  else a ++ "/" ++ b.

(** [path.split("/")[-1].split("_")[-1].split(".")[0]] *)
Definition lang_of (path : string) : string :=
  hd EmptyString
     (split "."
        (last (split "_" (last (split "/" path) EmptyString)) EmptyString)).

(** Truth value of an optional string ([None] and the empty string are
    false) and of an optional list ([None] and the empty list are false). *)
Definition truthy_str (o : option string) : bool :=
  match o with
  | Some s => negb (String.eqb s EmptyString)
  | None => false
  end.

Definition truthy_list (o : option (list string)) : bool :=
  match o with
  | Some (_ :: _) => true
  | _ => false
  end.

(** [a or b] for an optional string [a]. *)
Definition str_or (a : option string) (b : string) : string :=
  match a with
  | Some s => if String.eqb s EmptyString then b else s
  | None => b
  end.

Definition list_string_eqb (l1 l2 : list string) : bool :=
  if list_eq_dec string_dec l1 l2 then true else false.

(** ** What the script takes from the interpreter *)

(** The builtin conversions [int] and [float] ([None]: [ValueError]), the
    float constants the parser names, and the directory above the script's
    own, which is the default of [--top-level-dir]. *)
Class Runtime := {
  pyfloat : Type;
  py_int : string -> option Z;
  py_float : string -> option pyfloat;
  float_1_0 : pyfloat;
  float_0_1 : pyfloat;
  script_parent_dir : string
}.

(** ** The argument parser *)

(** The options of the parser built by [parse_args], and [-h]/[--help],
    which [ArgumentParser] adds. *)
Inductive Opt :=
| OHelp
| OTopLevelDir
| OIntrasentenceModel
| OIntersentenceModel
| OPretrainedModelName
| OEraserPathList
| OEraserBeforeLangAdapt
| OCkptPath
| OIntrasentenceDataPath
| OIntersentenceDataPath
| OBatchSize
| OTinyEvalFrac
| OSoftmaxTemperature
| OOutputDir
| OLoggingDir
| OSkipIntrasentence
| OSkipIntersentence
| OExperimentId.

Definition Opt_eq_dec (a b : Opt) : {a = b} + {a <> b}.
Proof. decide equality. Defined.

Definition long_options : list Opt :=
  [OHelp; OTopLevelDir; OIntrasentenceModel; OIntersentenceModel;
   OPretrainedModelName; OEraserPathList; OEraserBeforeLangAdapt; OCkptPath;
   OIntrasentenceDataPath; OIntersentenceDataPath; OBatchSize; OTinyEvalFrac;
   OSoftmaxTemperature; OOutputDir; OLoggingDir; OSkipIntrasentence;
   OSkipIntersentence; OExperimentId].

Definition option_string (o : Opt) : string :=
  match o with
  | OHelp => "--help"
  | OTopLevelDir => "--top-level-dir"
  | OIntrasentenceModel => "--intrasentence-model"
  | OIntersentenceModel => "--intersentence-model"
  | OPretrainedModelName => "--pretrained-model-name"
  | OEraserPathList => "--eraser-path-list"
  | OEraserBeforeLangAdapt => "--eraser-before-lang-adapt"
  | OCkptPath => "--ckpt-path"
  | OIntrasentenceDataPath => "--intrasentence-data-path"
  | OIntersentenceDataPath => "--intersentence-data-path"
  | OBatchSize => "--batch-size"
  | OTinyEvalFrac => "--tiny-eval-frac"
  | OSoftmaxTemperature => "--softmax-temperature"
  | OOutputDir => "--output-dir"
  | OLoggingDir => "--logging-dir"
  | OSkipIntrasentence => "--skip-intrasentence"
  | OSkipIntersentence => "--skip-intersentence"
  | OExperimentId => "--experiment-id"
  end.

(** [nargs] of an option: exactly one value (the default), none (the
    [store_true] and help actions), ['?'] or ['*']. *)
Inductive Nargs := NargsOne | NargsNone | NargsOptional | NargsStar.

Definition nargs (o : Opt) : Nargs :=
  match o with
  | OHelp | OEraserBeforeLangAdapt | OSkipIntrasentence | OSkipIntersentence =>
      NargsNone
  | OTinyEvalFrac => NargsOptional
  | OEraserPathList => NargsStar
  | _ => NargsOne
  end.

Definition intrasentence_choices : list string := ["BertForMLM"; "SwissBertForMLM"].
Definition intersentence_choices : list string := ["BertForNSP"; "SwissBertForNSP"].
Definition pretrained_choices : list string :=
  ["bert-base-uncased"; "ZurichNLP/swissbert-xlm-vocab"].

Definition in_choices (v : string) (choices : list string) : bool :=
  existsb (String.eqb v) choices.

Section Parser.

Context {RT : Runtime}.

(** The namespace [parse_args] returns. *)
Record Namespace := {
  top_level_dir : string;
  intrasentence_model : string;
  intersentence_model : string;
  pretrained_model_name : string;
  eraser_path_list : option (list string);
  eraser_before_lang_adapt : bool;
  ckpt_path : option string;
  intrasentence_data_path : option string;
  intersentence_data_path : option string;
  batch_size : Z;
  tiny_eval_frac : option pyfloat;
  softmax_temperature : pyfloat;
  output_dir : option string;
  logging_dir : option string;
  skip_intrasentence : bool;
  skip_intersentence : bool;
  experiment_id : option string
}.

(** The defaults of the [add_argument] calls; an option without [default]
    starts as [None], a [store_true] option without [default] as [False]. *)
Definition defaults : Namespace := {|
  top_level_dir := script_parent_dir;
  intrasentence_model := "BertForMLM";
  intersentence_model := "BertForNSP";
  pretrained_model_name := "bert-base-uncased";
  eraser_path_list := None;
  eraser_before_lang_adapt := false;
  ckpt_path := None;
  intrasentence_data_path := None;
  intersentence_data_path := None;
  batch_size := 16;
  tiny_eval_frac := None;
  softmax_temperature := float_1_0;
  output_dir := None;
  logging_dir := None;
  skip_intrasentence := false;
  skip_intersentence := true;
  experiment_id := None
|}.

(** [setattr(namespace, dest, value)], one function per destination. *)
Definition set_top_level_dir (ns : Namespace) (v : string) : Namespace :=
  {| top_level_dir := v;
     intrasentence_model := intrasentence_model ns;
     intersentence_model := intersentence_model ns;
     pretrained_model_name := pretrained_model_name ns;
     eraser_path_list := eraser_path_list ns;
     eraser_before_lang_adapt := eraser_before_lang_adapt ns;
     ckpt_path := ckpt_path ns;
     intrasentence_data_path := intrasentence_data_path ns;
     intersentence_data_path := intersentence_data_path ns;
     batch_size := batch_size ns;
     tiny_eval_frac := tiny_eval_frac ns;
     softmax_temperature := softmax_temperature ns;
     output_dir := output_dir ns;
     logging_dir := logging_dir ns;
     skip_intrasentence := skip_intrasentence ns;
     skip_intersentence := skip_intersentence ns;
     experiment_id := experiment_id ns |}.

Definition set_intrasentence_model (ns : Namespace) (v : string) : Namespace :=
  {| top_level_dir := top_level_dir ns;
     intrasentence_model := v;
     intersentence_model := intersentence_model ns;
     pretrained_model_name := pretrained_model_name ns;
     eraser_path_list := eraser_path_list ns;
     eraser_before_lang_adapt := eraser_before_lang_adapt ns;
     ckpt_path := ckpt_path ns;
     intrasentence_data_path := intrasentence_data_path ns;
     intersentence_data_path := intersentence_data_path ns;
     batch_size := batch_size ns;
     tiny_eval_frac := tiny_eval_frac ns;
     softmax_temperature := softmax_temperature ns;
     output_dir := output_dir ns;
     logging_dir := logging_dir ns;
     skip_intrasentence := skip_intrasentence ns;
     skip_intersentence := skip_intersentence ns;
     experiment_id := experiment_id ns |}.

Definition set_intersentence_model (ns : Namespace) (v : string) : Namespace :=
  {| top_level_dir := top_level_dir ns;
     intrasentence_model := intrasentence_model ns;
     intersentence_model := v;
     pretrained_model_name := pretrained_model_name ns;
     eraser_path_list := eraser_path_list ns;
     eraser_before_lang_adapt := eraser_before_lang_adapt ns;
     ckpt_path := ckpt_path ns;
     intrasentence_data_path := intrasentence_data_path ns;
     intersentence_data_path := intersentence_data_path ns;
     batch_size := batch_size ns;
     tiny_eval_frac := tiny_eval_frac ns;
     softmax_temperature := softmax_temperature ns;
     output_dir := output_dir ns;
     logging_dir := logging_dir ns;
     skip_intrasentence := skip_intrasentence ns;
     skip_intersentence := skip_intersentence ns;
     experiment_id := experiment_id ns |}.

Definition set_pretrained_model_name (ns : Namespace) (v : string) : Namespace :=
  {| top_level_dir := top_level_dir ns;
     intrasentence_model := intrasentence_model ns;
     intersentence_model := intersentence_model ns;
     pretrained_model_name := v;
     eraser_path_list := eraser_path_list ns;
     eraser_before_lang_adapt := eraser_before_lang_adapt ns;
     ckpt_path := ckpt_path ns;
     intrasentence_data_path := intrasentence_data_path ns;
     intersentence_data_path := intersentence_data_path ns;
     batch_size := batch_size ns;
     tiny_eval_frac := tiny_eval_frac ns;
     softmax_temperature := softmax_temperature ns;
     output_dir := output_dir ns;
     logging_dir := logging_dir ns;
     skip_intrasentence := skip_intrasentence ns;
     skip_intersentence := skip_intersentence ns;
     experiment_id := experiment_id ns |}.

Definition set_eraser_path_list (ns : Namespace) (v : option (list string)) : Namespace :=
  {| top_level_dir := top_level_dir ns;
     intrasentence_model := intrasentence_model ns;
     intersentence_model := intersentence_model ns;
     pretrained_model_name := pretrained_model_name ns;
     eraser_path_list := v;
     eraser_before_lang_adapt := eraser_before_lang_adapt ns;
     ckpt_path := ckpt_path ns;
     intrasentence_data_path := intrasentence_data_path ns;
     intersentence_data_path := intersentence_data_path ns;
     batch_size := batch_size ns;
     tiny_eval_frac := tiny_eval_frac ns;
     softmax_temperature := softmax_temperature ns;
     output_dir := output_dir ns;
     logging_dir := logging_dir ns;
     skip_intrasentence := skip_intrasentence ns;
     skip_intersentence := skip_intersentence ns;
     experiment_id := experiment_id ns |}.

Definition set_eraser_before_lang_adapt (ns : Namespace) (v : bool) : Namespace :=
  {| top_level_dir := top_level_dir ns;
     intrasentence_model := intrasentence_model ns;
     intersentence_model := intersentence_model ns;
     pretrained_model_name := pretrained_model_name ns;
     eraser_path_list := eraser_path_list ns;
     eraser_before_lang_adapt := v;
     ckpt_path := ckpt_path ns;
     intrasentence_data_path := intrasentence_data_path ns;
     intersentence_data_path := intersentence_data_path ns;
     batch_size := batch_size ns;
     tiny_eval_frac := tiny_eval_frac ns;
     softmax_temperature := softmax_temperature ns;
     output_dir := output_dir ns;
     logging_dir := logging_dir ns;
     skip_intrasentence := skip_intrasentence ns;
     skip_intersentence := skip_intersentence ns;
     experiment_id := experiment_id ns |}.

Definition set_ckpt_path (ns : Namespace) (v : option string) : Namespace :=
  {| top_level_dir := top_level_dir ns;
     intrasentence_model := intrasentence_model ns;
     intersentence_model := intersentence_model ns;
     pretrained_model_name := pretrained_model_name ns;
     eraser_path_list := eraser_path_list ns;
     eraser_before_lang_adapt := eraser_before_lang_adapt ns;
     ckpt_path := v;
     intrasentence_data_path := intrasentence_data_path ns;
     intersentence_data_path := intersentence_data_path ns;
     batch_size := batch_size ns;
     tiny_eval_frac := tiny_eval_frac ns;
     softmax_temperature := softmax_temperature ns;
     output_dir := output_dir ns;
     logging_dir := logging_dir ns;
     skip_intrasentence := skip_intrasentence ns;
     skip_intersentence := skip_intersentence ns;
     experiment_id := experiment_id ns |}.

Definition set_intrasentence_data_path (ns : Namespace) (v : option string) : Namespace :=
  {| top_level_dir := top_level_dir ns;
     intrasentence_model := intrasentence_model ns;
     intersentence_model := intersentence_model ns;
     pretrained_model_name := pretrained_model_name ns;
     eraser_path_list := eraser_path_list ns;
     eraser_before_lang_adapt := eraser_before_lang_adapt ns;
     ckpt_path := ckpt_path ns;
     intrasentence_data_path := v;
     intersentence_data_path := intersentence_data_path ns;
     batch_size := batch_size ns;
     tiny_eval_frac := tiny_eval_frac ns;
     softmax_temperature := softmax_temperature ns;
     output_dir := output_dir ns;
     logging_dir := logging_dir ns;
     skip_intrasentence := skip_intrasentence ns;
     skip_intersentence := skip_intersentence ns;
     experiment_id := experiment_id ns |}.

Definition set_intersentence_data_path (ns : Namespace) (v : option string) : Namespace :=
  {| top_level_dir := top_level_dir ns;
     intrasentence_model := intrasentence_model ns;
     intersentence_model := intersentence_model ns;
     pretrained_model_name := pretrained_model_name ns;
     eraser_path_list := eraser_path_list ns;
     eraser_before_lang_adapt := eraser_before_lang_adapt ns;
     ckpt_path := ckpt_path ns;
     intrasentence_data_path := intrasentence_data_path ns;
     intersentence_data_path := v;
     batch_size := batch_size ns;
     tiny_eval_frac := tiny_eval_frac ns;
     softmax_temperature := softmax_temperature ns;
     output_dir := output_dir ns;
     logging_dir := logging_dir ns;
     skip_intrasentence := skip_intrasentence ns;
     skip_intersentence := skip_intersentence ns;
     experiment_id := experiment_id ns |}.

Definition set_batch_size (ns : Namespace) (v : Z) : Namespace :=
  {| top_level_dir := top_level_dir ns;
     intrasentence_model := intrasentence_model ns;
     intersentence_model := intersentence_model ns;
     pretrained_model_name := pretrained_model_name ns;
     eraser_path_list := eraser_path_list ns;
     eraser_before_lang_adapt := eraser_before_lang_adapt ns;
     ckpt_path := ckpt_path ns;
     intrasentence_data_path := intrasentence_data_path ns;
     intersentence_data_path := intersentence_data_path ns;
     batch_size := v;
     tiny_eval_frac := tiny_eval_frac ns;
     softmax_temperature := softmax_temperature ns;
     output_dir := output_dir ns;
     logging_dir := logging_dir ns;
     skip_intrasentence := skip_intrasentence ns;
     skip_intersentence := skip_intersentence ns;
     experiment_id := experiment_id ns |}.

Definition set_tiny_eval_frac (ns : Namespace) (v : option pyfloat) : Namespace :=
  {| top_level_dir := top_level_dir ns;
     intrasentence_model := intrasentence_model ns;
     intersentence_model := intersentence_model ns;
     pretrained_model_name := pretrained_model_name ns;
     eraser_path_list := eraser_path_list ns;
     eraser_before_lang_adapt := eraser_before_lang_adapt ns;
     ckpt_path := ckpt_path ns;
     intrasentence_data_path := intrasentence_data_path ns;
     intersentence_data_path := intersentence_data_path ns;
     batch_size := batch_size ns;
     tiny_eval_frac := v;
     softmax_temperature := softmax_temperature ns;
     output_dir := output_dir ns;
     logging_dir := logging_dir ns;
     skip_intrasentence := skip_intrasentence ns;
     skip_intersentence := skip_intersentence ns;
     experiment_id := experiment_id ns |}.

Definition set_softmax_temperature (ns : Namespace) (v : pyfloat) : Namespace :=
  {| top_level_dir := top_level_dir ns;
     intrasentence_model := intrasentence_model ns;
     intersentence_model := intersentence_model ns;
     pretrained_model_name := pretrained_model_name ns;
     eraser_path_list := eraser_path_list ns;
     eraser_before_lang_adapt := eraser_before_lang_adapt ns;
     ckpt_path := ckpt_path ns;
     intrasentence_data_path := intrasentence_data_path ns;
     intersentence_data_path := intersentence_data_path ns;
     batch_size := batch_size ns;
     tiny_eval_frac := tiny_eval_frac ns;
     softmax_temperature := v;
     output_dir := output_dir ns;
     logging_dir := logging_dir ns;
     skip_intrasentence := skip_intrasentence ns;
     skip_intersentence := skip_intersentence ns;
     experiment_id := experiment_id ns |}.

Definition set_output_dir (ns : Namespace) (v : option string) : Namespace :=
  {| top_level_dir := top_level_dir ns;
     intrasentence_model := intrasentence_model ns;
     intersentence_model := intersentence_model ns;
     pretrained_model_name := pretrained_model_name ns;
     eraser_path_list := eraser_path_list ns;
     eraser_before_lang_adapt := eraser_before_lang_adapt ns;
     ckpt_path := ckpt_path ns;
     intrasentence_data_path := intrasentence_data_path ns;
     intersentence_data_path := intersentence_data_path ns;
     batch_size := batch_size ns;
     tiny_eval_frac := tiny_eval_frac ns;
     softmax_temperature := softmax_temperature ns;
     output_dir := v;
     logging_dir := logging_dir ns;
     skip_intrasentence := skip_intrasentence ns;
     skip_intersentence := skip_intersentence ns;
     experiment_id := experiment_id ns |}.

Definition set_logging_dir (ns : Namespace) (v : option string) : Namespace :=
  {| top_level_dir := top_level_dir ns;
     intrasentence_model := intrasentence_model ns;
     intersentence_model := intersentence_model ns;
     pretrained_model_name := pretrained_model_name ns;
     eraser_path_list := eraser_path_list ns;
     eraser_before_lang_adapt := eraser_before_lang_adapt ns;
     ckpt_path := ckpt_path ns;
     intrasentence_data_path := intrasentence_data_path ns;
     intersentence_data_path := intersentence_data_path ns;
     batch_size := batch_size ns;
     tiny_eval_frac := tiny_eval_frac ns;
     softmax_temperature := softmax_temperature ns;
     output_dir := output_dir ns;
     logging_dir := v;
     skip_intrasentence := skip_intrasentence ns;
     skip_intersentence := skip_intersentence ns;
     experiment_id := experiment_id ns |}.

Definition set_skip_intrasentence (ns : Namespace) (v : bool) : Namespace :=
  {| top_level_dir := top_level_dir ns;
     intrasentence_model := intrasentence_model ns;
     intersentence_model := intersentence_model ns;
     pretrained_model_name := pretrained_model_name ns;
     eraser_path_list := eraser_path_list ns;
     eraser_before_lang_adapt := eraser_before_lang_adapt ns;
     ckpt_path := ckpt_path ns;
     intrasentence_data_path := intrasentence_data_path ns;
     intersentence_data_path := intersentence_data_path ns;
     batch_size := batch_size ns;
     tiny_eval_frac := tiny_eval_frac ns;
     softmax_temperature := softmax_temperature ns;
     output_dir := output_dir ns;
     logging_dir := logging_dir ns;
     skip_intrasentence := v;
     skip_intersentence := skip_intersentence ns;
     experiment_id := experiment_id ns |}.

Definition set_skip_intersentence (ns : Namespace) (v : bool) : Namespace :=
  {| top_level_dir := top_level_dir ns;
     intrasentence_model := intrasentence_model ns;
     intersentence_model := intersentence_model ns;
     pretrained_model_name := pretrained_model_name ns;
     eraser_path_list := eraser_path_list ns;
     eraser_before_lang_adapt := eraser_before_lang_adapt ns;
     ckpt_path := ckpt_path ns;
     intrasentence_data_path := intrasentence_data_path ns;
     intersentence_data_path := intersentence_data_path ns;
     batch_size := batch_size ns;
     tiny_eval_frac := tiny_eval_frac ns;
     softmax_temperature := softmax_temperature ns;
     output_dir := output_dir ns;
     logging_dir := logging_dir ns;
     skip_intrasentence := skip_intrasentence ns;
     skip_intersentence := v;
     experiment_id := experiment_id ns |}.

Definition set_experiment_id (ns : Namespace) (v : option string) : Namespace :=
  {| top_level_dir := top_level_dir ns;
     intrasentence_model := intrasentence_model ns;
     intersentence_model := intersentence_model ns;
     pretrained_model_name := pretrained_model_name ns;
     eraser_path_list := eraser_path_list ns;
     eraser_before_lang_adapt := eraser_before_lang_adapt ns;
     ckpt_path := ckpt_path ns;
     intrasentence_data_path := intrasentence_data_path ns;
     intersentence_data_path := intersentence_data_path ns;
     batch_size := batch_size ns;
     tiny_eval_frac := tiny_eval_frac ns;
     softmax_temperature := softmax_temperature ns;
     output_dir := output_dir ns;
     logging_dir := logging_dir ns;
     skip_intrasentence := skip_intrasentence ns;
     skip_intersentence := skip_intersentence ns;
     experiment_id := v |}.

(** Modelled from the spec: [utils.customAction], the action class of
    [--eraser-path-list], is defined in [src/utils/utils.py], which is not
    among the sources.  As the option is described (an optional debiasing
    path list whose absence of values selects a default path) it stores the
    option's [const] when no value is given and the given values
    otherwise.  The result is what it assigns to [dest]. *)
Definition customAction (const values : list string) : option (list string) :=
  match values with
  | [] => Some const
  | _ :: _ => Some values
  end.

(** What the action of option [o] does to the namespace when the occurrence
    of [o] collected [values]: conversion by [type], the [choices] check,
    then the assignment.  [None] is [parser.error] or the exit of [--help];
    a number of values that [nargs] does not allow is an error as well. *)
Definition apply_action (ns : Namespace) (o : Opt) (values : list string)
  : option Namespace :=
  match o, values with
  | OHelp, _ => None
  | OTopLevelDir, [v] => Some (set_top_level_dir ns v)
  | OIntrasentenceModel, [v] =>
      if in_choices v intrasentence_choices
      then Some (set_intrasentence_model ns v) else None
  | OIntersentenceModel, [v] =>
      if in_choices v intersentence_choices
      then Some (set_intersentence_model ns v) else None
  | OPretrainedModelName, [v] =>
      if in_choices v pretrained_choices
      then Some (set_pretrained_model_name ns v) else None
  | OEraserPathList, vs =>
      Some (set_eraser_path_list ns (customAction ["default_path"] vs))
  | OEraserBeforeLangAdapt, [] => Some (set_eraser_before_lang_adapt ns true)
  | OCkptPath, [v] => Some (set_ckpt_path ns (Some v))
  | OIntrasentenceDataPath, [v] => Some (set_intrasentence_data_path ns (Some v))
  | OIntersentenceDataPath, [v] => Some (set_intersentence_data_path ns (Some v))
  | OBatchSize, [v] =>
      match py_int v with
      | Some n => Some (set_batch_size ns n)
      | None => None
      end
  | OTinyEvalFrac, [] => Some (set_tiny_eval_frac ns (Some float_0_1))
  | OTinyEvalFrac, [v] =>
      match py_float v with
      | Some x => Some (set_tiny_eval_frac ns (Some x))
      | None => None
      end
  | OSoftmaxTemperature, [v] =>
      match py_float v with
      | Some x => Some (set_softmax_temperature ns x)
      | None => None
      end
  | OOutputDir, [v] => Some (set_output_dir ns (Some v))
  | OLoggingDir, [v] => Some (set_logging_dir ns (Some v))
  | OSkipIntrasentence, [] => Some (set_skip_intrasentence ns true)
  | OSkipIntersentence, [] => Some (set_skip_intersentence ns true)
  | OExperimentId, [v] => Some (set_experiment_id ns (Some v))
  | _, _ => None
  end.

(** *** Reading the argument vector *)

(** The option strings the parser knows. *)
Definition option_strings : list (string * Opt) :=
  ("-h", OHelp) :: map (fun o => (option_string o, o)) long_options.

Definition exact_option (s : string) : option Opt :=
  option_map snd (find (fun so => String.eqb (fst so) s) option_strings).

Definition is_digit (c : ascii) : bool :=
  (Nat.leb 48 (nat_of_ascii c) && Nat.leb (nat_of_ascii c) 57)%bool.

Fixpoint all_digits (s : string) : bool :=
  match s with
  | EmptyString => true
  | String c s' => is_digit c && all_digits s'
  end.

(** The parser's pattern for negative numbers: [-\d+] or [-\d*\.\d+]. *)
Definition is_negative_number (s : string) : bool :=
  match s with
  | String "-" body =>
      match partition "." body with
      | Some (whole, frac) =>
          all_digits whole && all_digits frac
          && negb (String.eqb frac EmptyString)
      | None => all_digits body && negb (String.eqb body EmptyString)
      end
  | _ => false
  end.

(** How the parser reads one argument string. *)
Inductive Token :=
| TArg                                        (* a value *)
| TOpt (o : Opt) (explicit : option string)   (* an option, maybe [--opt=value] *)
| TAmbiguous                                  (* an abbreviation of several options *)
| TUnknown.                                   (* an option the parser does not have *)

(** The options [arg] abbreviates, with the explicit value it carries:
    for [--pre] or [--pre=value] the options whose string starts with
    [--pre]; for [-x...] the option [-x] with the rest as value, and the
    options whose string starts with [arg]. *)
Definition abbreviations (arg : string) : list (Opt * option string) :=
  match arg with
  | String "-" (String "-" _) =>
      let '(pre, explicit) :=
        match partition "=" arg with
        | Some (pre, value) => (pre, Some value)
        | None => (arg, None)
        end in
      map (fun so => (snd so, explicit))
          (filter (fun so => String.prefix pre (fst so)) option_strings)
  | String "-" (String c rest) =>
      flat_map
        (fun so =>
           if String.eqb (fst so) (String "-" (String c EmptyString))
           then [(snd so, Some rest)]
           else if String.prefix arg (fst so) then [(snd so, None)]
           else [])
        option_strings
  | _ => []
  end.

(** [ArgumentParser._parse_optional] *)
Definition classify (arg : string) : Token :=
  match arg with
  | EmptyString => TArg
  | String c _ =>
      if negb (Ascii.eqb c "-") then TArg
      else
        match exact_option arg with
        | Some o => TOpt o None
        | None =>
            if String.eqb arg "-" then TArg
            else
              let with_equals :=
                match partition "=" arg with
                | Some (name, value) =>
                    match exact_option name with
                    | Some o => Some (TOpt o (Some value))
                    | None => None
                    end
                | None => None
                end in
              match with_equals with
              | Some t => t
              | None =>
                  match abbreviations arg with
                  | _ :: _ :: _ => TAmbiguous
                  | [(o, explicit)] => TOpt o explicit
                  | [] =>
                      if is_negative_number arg then TArg
                      else if contains " " arg then TArg
                      else TUnknown
                  end
              end
        end
  end.

(** The state of the parser between two argument strings: the namespace so
    far and the option whose values are being collected. *)
Record PState := {
  ns_of : Namespace;
  pending : option (Opt * list string)
}.

(** Whether the pending option takes one more value. *)
Definition can_take (o : Opt) (values : list string) : bool :=
  match nargs o, values with
  | NargsOne, [] | NargsOptional, [] => true
  | NargsStar, _ => true
  | _, _ => false
  end.

(** The pending option has all its values: its action runs. *)
Definition finish (st : PState) : option Namespace :=
  match pending st with
  | None => Some (ns_of st)
  | Some (o, values) => apply_action (ns_of st) o values
  end.

(** One argument string.  A value goes to the pending option or, the
    parser having no positional argument, is an unrecognized argument; an
    option string closes the pending option.  The separator [--] is not
    modelled: an argument vector that contains it is rejected. *)
Definition step (st : PState) (arg : string) : option PState :=
  if String.eqb arg "--" then None
  else
    match classify arg with
    | TArg =>
        match pending st with
        | Some (o, values) =>
            if can_take o values
            then Some {| ns_of := ns_of st; pending := Some (o, (values ++ [arg])%list) |}
            else None
        | None => None
        end
    | TOpt o explicit =>
        match finish st with
        | None => None
        | Some ns =>
            match explicit with
            | None => Some {| ns_of := ns; pending := Some (o, []) |}
            | Some value =>
                match nargs o with
                | NargsNone => None
                | _ =>
                    match apply_action ns o [value] with
                    | Some ns' => Some {| ns_of := ns'; pending := None |}
                    | None => None
                    end
                end
            end
        end
    | TAmbiguous | TUnknown => None
    end.

Fixpoint parse_loop (st : PState) (argv : list string) : option Namespace :=
  match argv with
  | [] => finish st
  | arg :: rest =>
      match step st arg with
      | None => None
      | Some st' => parse_loop st' rest
      end
  end.

(** [parse_args()] on the argument vector [argv] ([sys.argv[1:]]); [None]
    when the parser exits instead of returning. *)
Definition parse_args (argv : list string) : option Namespace :=
  parse_loop {| ns_of := defaults; pending := None |} argv.

(** The argument string [arg] is read as option [o]. *)
Definition names_option (o : Opt) (arg : string) : bool :=
  match classify arg with
  | TOpt o' _ => if Opt_eq_dec o' o then true else false
  | _ => false
  end.

(** Option [o] occurs in [argv]. *)
Definition option_given (o : Opt) (argv : list string) : bool :=
  existsb (names_option o) argv.



(** What every namespace of the parser satisfies: the intersentence part is
    skipped and the two architectures are among their [choices]. *)
Definition parsed_ok (ns : Namespace) : Prop :=
  skip_intersentence ns = true /\
  In (intrasentence_model ns) intrasentence_choices /\
  In (intersentence_model ns) intersentence_choices.

End Parser.

(** ** The world around [main] *)

(** Exceptions: the unbound local variable, the missing attribute, and
    whatever a library call raises. *)
Inductive Exn :=
| UnboundLocalError (name : string)
| AttributeError (name : string)
| Raised (what : string).

(** What [json.dump] is given: the results of one runner, or the dictionary
    [combined_results] (keys in insertion order). *)
Inductive Dumped (R : Type) :=
| DResults (r : R)
| DDict (d : list (string * R)).

Arguments DResults {R} r.
Arguments DDict {R} d.

(** The libraries [main] calls.  A call either returns or raises; its
    outcome is taken as a function of its arguments.  [models_getattr name]
    is [getattr(models, name)]: the class of that name, as its constructor,
    if the module has one.  The two [run] functions stand for building the
    runner and calling its [run()]. *)
Class World {RT : Runtime} := {
  Tokenizer : Type;
  Model : Type;
  Results : Type;
  os_makedirs : string -> option Exn;
  from_pretrained : string -> Exn + Tokenizer;
  models_getattr :
    string -> option (string -> string -> option (list string) -> bool -> Exn + Model);
  IntrasentenceInferenceRunner_run :
    Model -> Tokenizer -> string -> string -> Z -> option pyfloat -> pyfloat
    -> Exn + Results;
  IntersentenceInferenceRunner_run :
    Model -> Tokenizer -> string -> string -> Z -> option pyfloat -> pyfloat
    -> Exn + Results;
  json_dump : string -> Dumped Results -> option Exn
}.

Section Main.

Context {RT : Runtime} {W : World}.

(** The calls [main] makes, in order.  A call is recorded when it is made,
    whether it returns or raises. *)
Inductive Event :=
| EMakedirs (path : string)
| EFromPretrained (name : string)
| EGetattr (name : string)
| EConstruct (class_name weights lang : string)
             (erasers : option (list string)) (before_lang_adapt : bool)
| ERunIntrasentence (data_path pretrained : string) (batch : Z)
                    (frac : option pyfloat) (temperature : pyfloat)
| ERunIntersentence (data_path pretrained : string) (batch : Z)
                    (frac : option pyfloat) (temperature : pyfloat)
| EDump (path : string) (content : Dumped Results).

(** A computation that records calls and may raise. *)
Definition M (A : Type) : Type := list Event * (Exn + A).

Definition ret {A} (a : A) : M A := ([], inr a).

Definition bind {A B} (m : M A) (f : A -> M B) : M B :=
  match m with
  | (t1, inl e) => (t1, inl e)
  | (t1, inr a) => let '(t2, r) := f a in ((t1 ++ t2)%list, r)
  end.

Definition raise {A} (e : Exn) : M A := ([], inl e).

(** A call with outcome [r], recorded as [ev]. *)
Definition call {A} (ev : Event) (r : Exn + A) : M A := ([ev], r).

Definition outcome (r : option Exn) : Exn + unit :=
  match r with
  | Some e => inl e
  | None => inr tt
  end.

Definition trace {A} (m : M A) : list Event := fst m.
Definition result {A} (m : M A) : Exn + A := snd m.

Notation "x <- m ;; k" := (bind m (fun x => k))
  (at level 61, m at next level, right associativity).
Notation "m ;;; k" := (bind m (fun _ => k))
  (at level 61, right associativity).

(** [d[key] = value] on a dictionary kept in insertion order. *)
Fixpoint dict_set {V} (d : list (string * V)) (key : string) (value : V)
  : list (string * V) :=
  match d with
  | [] => [(key, value)]
  | (k, v) :: d' =>
      if String.eqb k key then (k, value) :: d'
      else (k, v) :: dict_set d' key value
  end.

Fixpoint dict_get {V} (d : list (string * V)) (key : string) : option V :=
  match d with
  | [] => None
  | (k, v) :: d' => if String.eqb k key then Some v else dict_get d' key
  end.

(** *** The local variables [main] computes from [args] *)

Definition intrasentence_data_path_of (args : Namespace) : string :=
  match intrasentence_data_path args with
  | None => path_join (top_level_dir args) "data/df_intrasentence_en.pkl"
  | Some path => path
  end.

Definition intersentence_data_path_of (args : Namespace) : string :=
  match intersentence_data_path args with
  | None => path_join (top_level_dir args) "data/df_intersentence_en.pkl"
  | Some path => path
  end.

Definition output_dir_of (args : Namespace) : string :=
  match output_dir args with
  | None => path_join (top_level_dir args) "inference_output"
  | Some dir => dir
  end.

Definition eraser_path_list_of (args : Namespace) : option (list string) :=
  match eraser_path_list args with
  | Some l =>
      if list_string_eqb l ["default_path"]
      then Some [path_join (top_level_dir args)
                   "data/concept_eraser/eraser_models/eraser.pkl"]
      else Some l
  | None => None
  end.

(** *** The parts of the file names *)

Definition debiased_part (args : Namespace) : string :=
  if truthy_str (ckpt_path args) then "_debiased" else EmptyString.

Definition experiment_part (args : Namespace) : string :=
  match experiment_id args with
  | Some id => if String.eqb id EmptyString then EmptyString else "_" ++ id
  | None => EmptyString
  end.

Definition eraser_part (args : Namespace) : string :=
  if truthy_list (eraser_path_list args) then "_eraser" else EmptyString.

Definition intrasentence_file (args : Namespace) (lang : string) : string :=
  "intrasentence_" ++ intrasentence_model args ++ debiased_part args
  ++ "_" ++ lang ++ experiment_part args ++ eraser_part args ++ ".json".

Definition intersentence_file (args : Namespace) (lang : string) : string :=
  "intersentence_" ++ intersentence_model args ++ debiased_part args
  ++ "_" ++ lang ++ experiment_part args ++ eraser_part args ++ ".json".

Definition combined_file (args : Namespace) (lang : string) : string :=
  "combined_results"
  ++ (if negb (skip_intrasentence args)
      then "_" ++ intrasentence_model args else EmptyString)
  ++ (if negb (skip_intersentence args)
      then "_" ++ intersentence_model args else EmptyString)
  ++ debiased_part args
  ++ "_" ++ lang ++ experiment_part args ++ eraser_part args ++ ".json".

(** *** [main] *)

(** [getattr(models, name)(weights, lang, erasers, before)] *)
Definition instantiate (name weights lang : string)
    (erasers : option (list string)) (before : bool) : M Model :=
  cls <- call (EGetattr name)
           (match models_getattr name with
            | Some cls => inr cls
            | None => inl (AttributeError name)
            end) ;;
  call (EConstruct name weights lang erasers before)
       (cls weights lang erasers before).

(** [with open(path, "w") as f: json.dump(content, f, indent=2)] *)
Definition dump (path : string) (content : Dumped Results) : M unit :=
  call (EDump path content) (outcome (json_dump path content)).

(** The two branches leave the local variable [lang] ([None] while it is
    unbound) and the dictionary [combined_results]. *)
Definition Locals : Type := option string * list (string * Results).

Definition intrasentence_branch (args : Namespace) (tokenizer : Tokenizer)
    (locals : Locals) : M Locals :=
  if negb (skip_intrasentence args) then
    let lang := lang_of (intrasentence_data_path_of args) in
    intrasentence_model_ <-
      instantiate (intrasentence_model args)
        (str_or (ckpt_path args) (pretrained_model_name args)) lang
        (eraser_path_list_of args) (eraser_before_lang_adapt args) ;;
    intrasentence_results <-
      call (ERunIntrasentence (intrasentence_data_path_of args)
              (pretrained_model_name args) (batch_size args)
              (tiny_eval_frac args) (softmax_temperature args))
           (IntrasentenceInferenceRunner_run intrasentence_model_ tokenizer
              (intrasentence_data_path_of args) (pretrained_model_name args)
              (batch_size args) (tiny_eval_frac args) (softmax_temperature args)) ;;
    let combined_results := dict_set (snd locals) "intrasentence" intrasentence_results in
    dump (path_join (output_dir_of args) (intrasentence_file args lang))
         (DResults intrasentence_results) ;;;
    ret (Some lang, combined_results)
  else ret locals.

Definition intersentence_branch (args : Namespace) (tokenizer : Tokenizer)
    (locals : Locals) : M Locals :=
  if negb (skip_intersentence args) then
    let lang := lang_of (intersentence_data_path_of args) in
    intersentence_model_ <-
      instantiate (intersentence_model args)
        (str_or (ckpt_path args) (pretrained_model_name args)) lang
        (eraser_path_list_of args) (eraser_before_lang_adapt args) ;;
    intersentence_results <-
      call (ERunIntersentence (intersentence_data_path_of args)
              (pretrained_model_name args) (batch_size args)
              (tiny_eval_frac args) (softmax_temperature args))
           (IntersentenceInferenceRunner_run intersentence_model_ tokenizer
              (intersentence_data_path_of args) (pretrained_model_name args)
              (batch_size args) (tiny_eval_frac args) (softmax_temperature args)) ;;
    let combined_results := dict_set (snd locals) "intersentence" intersentence_results in
    dump (path_join (output_dir_of args) (intersentence_file args lang))
         (DResults intersentence_results) ;;;
    ret (Some lang, combined_results)
  else ret locals.

(** [main(args)].  The calls of [logger.info] are left out. *)
Definition main (args : Namespace) : M unit :=
  call (EMakedirs (output_dir_of args)) (outcome (os_makedirs (output_dir_of args))) ;;;
  tokenizer <- call (EFromPretrained (pretrained_model_name args))
                 (from_pretrained (pretrained_model_name args)) ;;
  locals <- intrasentence_branch args tokenizer (None, []) ;;
  locals <- intersentence_branch args tokenizer locals ;;
  match fst locals with
  | None => raise (UnboundLocalError "lang")
  | Some lang =>
      dump (path_join (output_dir_of args) (combined_file args lang))
           (DDict (snd locals))
  end.

End Main.

(** ** A small world, for the examples *)

Fixpoint digits_value (acc : Z) (s : string) : Z :=
  match s with
  | EmptyString => acc
  | String c s' => digits_value (10 * acc + Z.of_nat (nat_of_ascii c - 48)) s'
  end.

(** Floats are kept as the text they were read from; [int] reads plain
    decimal digits. *)
Definition toy_runtime : Runtime := {|
  pyfloat := string;
  py_int := fun s =>
    if all_digits s && negb (String.eqb s EmptyString)
    then Some (digits_value 0 s) else None;
  py_float := fun s => Some s;
  float_1_0 := "1.0";
  float_0_1 := "0.1";
  script_parent_dir := "/repo"
|}.

(** Every call returns; the module [models] has the four classes the parser
    names; a model is represented by its class name and a runner's results
    by the path of its data. *)
Definition toy_world : @World toy_runtime := {|
  Tokenizer := string;
  Model := string;
  Results := string;
  os_makedirs := fun _ => None;
  from_pretrained := fun name => inr name;
  models_getattr := fun name =>
    if in_choices name (intrasentence_choices ++ intersentence_choices)%list
    then Some (fun _ _ _ _ => inr name) else None;
  IntrasentenceInferenceRunner_run := fun _ _ data _ _ _ _ => inr data;
  IntersentenceInferenceRunner_run := fun _ _ data _ _ _ _ => inr data;
  json_dump := fun _ _ => None
|}.

(** A float and a runner's results of the small world. *)
Definition toy_float (text : string) : @pyfloat toy_runtime := text.
Definition toy_results (data : string) : @Results toy_runtime toy_world := data.

(** The calls of [main] in the small world. *)
Definition toy_main (args : @Namespace toy_runtime)
  : list (@Event toy_runtime toy_world) * (Exn + unit) :=
  @main toy_runtime toy_world args.

(** ** Vocabulary for further statements *)

Section MoreParser.

Context {RT : Runtime}.

(** Two namespaces agree on the destination of option [o]. *)
Definition same_dest (o : Opt) (a b : Namespace) : Prop :=
  match o with
  | OHelp => True
  | OTopLevelDir => top_level_dir a = top_level_dir b
  | OIntrasentenceModel => intrasentence_model a = intrasentence_model b
  | OIntersentenceModel => intersentence_model a = intersentence_model b
  | OPretrainedModelName => pretrained_model_name a = pretrained_model_name b
  | OEraserPathList => eraser_path_list a = eraser_path_list b
  | OEraserBeforeLangAdapt => eraser_before_lang_adapt a = eraser_before_lang_adapt b
  | OCkptPath => ckpt_path a = ckpt_path b
  | OIntrasentenceDataPath => intrasentence_data_path a = intrasentence_data_path b
  | OIntersentenceDataPath => intersentence_data_path a = intersentence_data_path b
  | OBatchSize => batch_size a = batch_size b
  | OTinyEvalFrac => tiny_eval_frac a = tiny_eval_frac b
  | OSoftmaxTemperature => softmax_temperature a = softmax_temperature b
  | OOutputDir => output_dir a = output_dir b
  | OLoggingDir => logging_dir a = logging_dir b
  | OSkipIntrasentence => skip_intrasentence a = skip_intrasentence b
  | OSkipIntersentence => skip_intersentence a = skip_intersentence b
  | OExperimentId => experiment_id a = experiment_id b
  end.

(** The option whose values are being collected is [o]. *)
Definition pending_is (o : Opt) (st : PState) : bool :=
  match pending st with
  | Some (o', _) => if Opt_eq_dec o' o then true else false
  | None => false
  end.


End MoreParser.

(** ** The script *)

(** [logging.basicConfig(filename=...)]: it returns or raises. *)
Class LoggingLib := {
  logging_basicConfig : string -> option Exn
}.

Section Script.

Context {RT : Runtime} {W : World} {L : LoggingLib}.

(** The calls of the script: those before [main], and those of [main]. *)
Inductive ScriptEvent :=
| SMakedirs (path : string)
| SBasicConfig (filename : string)
| SMain (ev : Event).

Definition logging_dir_of (args : Namespace) : string :=
  match logging_dir args with
  | None => path_join (top_level_dir args) "logs"
  | Some dir => dir
  end.

(** The block under [if __name__ == "__main__"], on the argument vector
    [argv]: [None] when [parse_args] exits, else the calls made and how the
    script ends. *)
Definition script (argv : list string)
  : option (list ScriptEvent * (Exn + unit)) :=
  match parse_args argv with
  | None => None
  | Some args =>
      let logging_dir := logging_dir_of args in
      match os_makedirs logging_dir with
      | Some e => Some ([SMakedirs logging_dir], inl e)
      | None =>
          let filename := path_join logging_dir "inference_runs.log" in
          match logging_basicConfig filename with
          | Some e => Some ([SMakedirs logging_dir; SBasicConfig filename], inl e)
          | None =>
              Some ((SMakedirs logging_dir :: SBasicConfig filename
                     :: map SMain (trace (main args)))%list,
                    result (main args))
          end
      end
  end.

End Script.

(** Logging that always works, for the small world. *)
Definition toy_logging : LoggingLib := {| logging_basicConfig := fun _ => None |}.

Definition toy_script (argv : list string)
  : option (list (@ScriptEvent toy_runtime toy_world) * (Exn + unit)) :=
  @script toy_runtime toy_world toy_logging argv.

End Inference.

Module ModelBERTProofs.
Import ModelBERT.
Local Open Scope R_scope.

(** ** Cell update *)

Lemma update_length {A} (n : nat) (f : A -> A) (l : list A) :
  length (update n f l) = length l.
Proof.
  revert n; induction l as [|x l IH]; intros [|n]; simpl; auto.
Qed.

Lemma nth_update_same {A} (n : nat) (f : A -> A) (l : list A) (d : A) :
  (n < length l)%nat -> nth n (update n f l) d = f (nth n l d).
Proof.
  revert n; induction l as [|x l IH]; intros [|n] Hn; simpl in *; try lia; auto.
  apply IH; lia.
Qed.

Lemma nth_update_other {A} (n m : nat) (f : A -> A) (l : list A) (d : A) :
  n <> m -> nth m (update n f l) d = nth m l d.
Proof.
  revert n m; induction l as [|x l IH]; intros [|n] [|m] Hnm; simpl; auto;
    try congruence.
Qed.

(** Updating a cell with a function that keeps [P] keeps [P] everywhere. *)
Lemma nth_update_inv {A} (P : A -> Prop) (n m : nat) (f : A -> A) (l : list A) (d : A) :
  (forall a, P a -> P (f a)) -> P (nth m l d) -> P (nth m (update n f l) d).
Proof.
  intros Hf Hp.
  destruct (Nat.eq_dec n m) as [->|Hne].
  - destruct (Nat.lt_ge_cases m (length l)) as [Hlt|Hge].
    + rewrite nth_update_same by assumption. auto.
    + rewrite nth_overflow in * by (rewrite ?update_length; lia). assumption.
  - rewrite nth_update_other by assumption. assumption.
Qed.

(** ** Shapes *)

Lemma row_len_in_seq t i p v : (v < row_len t i p)%nat -> (p < seq_len t i)%nat.
Proof.
  unfold row_len, seq_len. intros H.
  destruct (Nat.lt_ge_cases p (length (nth i t []))) as [|Hge]; auto.
  rewrite (nth_overflow _ _ Hge) in H. simpl in H. lia.
Qed.

Lemma seq_len_in_batch t i p : (p < seq_len t i)%nat -> (i < length t)%nat.
Proof.
  unfold seq_len. intros H.
  destruct (Nat.lt_ge_cases i (length t)) as [|Hge]; auto.
  rewrite (nth_overflow _ _ Hge) in H. simpl in H. lia.
Qed.

Lemma set3_length t i p v x : length (set3 t i p v x) = length t.
Proof. apply update_length. Qed.

Lemma set3_seq_len t i p v x i' : seq_len (set3 t i p v x) i' = seq_len t i'.
Proof.
  unfold seq_len, set3.
  apply (nth_update_inv (fun a => length a = length (nth i' t []))); auto.
  intros a <-. apply update_length.
Qed.

Lemma set3_row_len t i p v x i' p' :
  row_len (set3 t i p v x) i' p' = row_len t i' p'.
Proof.
  unfold row_len, set3.
  apply (nth_update_inv
           (fun a => length (nth p' a []) = length (nth p' (nth i' t []) []))); auto.
  intros a <-.
  apply (nth_update_inv (fun r => length r = length (nth p' a []))); auto.
  intros r <-. apply update_length.
Qed.

Lemma get3_set3_same t i p v x :
  (v < row_len t i p)%nat -> get3 (set3 t i p v x) i p v = x.
Proof.
  intros Hv. pose proof (row_len_in_seq _ _ _ _ Hv) as Hp.
  pose proof (seq_len_in_batch _ _ _ Hp) as Hi.
  unfold get3, set3, row_len, seq_len in *.
  rewrite (nth_update_same i) by assumption.
  rewrite (nth_update_same p) by assumption.
  rewrite (nth_update_same v) by assumption. reflexivity.
Qed.

Lemma get3_set3_other t i p v x i' p' v' :
  (i, p, v) <> (i', p', v') ->
  get3 (set3 t i p v x) i' p' v' = get3 t i' p' v'.
Proof.
  intros Hne. unfold get3, set3.
  destruct (Nat.eq_dec i i') as [->|Hi];
    [|rewrite nth_update_other by assumption; reflexivity].
  apply (nth_update_inv
           (fun a => nth v' (nth p' a []) 0 = nth v' (nth p' (nth i' t []) []) 0));
    auto.
  intros a <-.
  destruct (Nat.eq_dec p p') as [->|Hp];
    [|rewrite nth_update_other by assumption; reflexivity].
  apply (nth_update_inv (fun r => nth v' r 0 = nth v' (nth p' a []) 0)); auto.
  intros r <-.
  apply nth_update_other. congruence.
Qed.


(** ** Sorting by decreasing entry *)

Lemma insert_desc_perm x l : Permutation (insert_desc x l) (x :: l).
Proof.
  induction l as [|y l IH]; simpl; auto.
  destruct (Rle_dec (fst y) (fst x)); auto.
  rewrite IH. apply perm_swap.
Qed.

Lemma sort_desc_perm l : Permutation (sort_desc l) l.
Proof.
  induction l as [|x l IH]; simpl; auto.
  rewrite insert_desc_perm. auto.
Qed.

Lemma insert_desc_sorted x l :
  StronglySorted desc l -> StronglySorted desc (insert_desc x l).
Proof.
  induction 1 as [|y l Hs IH Hall]; simpl.
  - repeat constructor.
  - destruct (Rle_dec (fst y) (fst x)) as [Hle|Hgt].
    + constructor; [constructor; assumption|].
      constructor; [exact Hle|].
      eapply Forall_impl; [|exact Hall].
      intros b Hb. unfold desc in *. lra.
    + constructor; [assumption|].
      apply (Permutation_Forall (Permutation_sym (insert_desc_perm x l))).
      constructor; [unfold desc; lra | assumption].
Qed.

Lemma sort_desc_sorted l : StronglySorted desc (sort_desc l).
Proof.
  induction l; simpl; [constructor | apply insert_desc_sorted; assumption].
Qed.


(** ** [enumerate] and [topk_row] *)

Lemma in_combine_seq (row : Tensor1) s x n :
  In (x, n) (combine row (seq s (length row))) <->
  (s <= n < s + length row)%nat /\ nth (n - s) row 0 = x.
Proof.
  revert s; induction row as [|y row IH]; intros s; simpl.
  - split; [contradiction | lia].
  - rewrite IH. split.
    + intros [Heq | [Hn Hx]].
      * inversion Heq; subst. rewrite Nat.sub_diag. split; [lia | reflexivity].
      * split; [lia|]. replace (n - s)%nat with (S (n - S s)) by lia. exact Hx.
    + intros [Hn Hx]. destruct (Nat.eq_dec n s) as [->|Hne].
      * left. rewrite Nat.sub_diag in Hx. congruence.
      * right. split; [lia|].
        replace (n - s)%nat with (S (n - S s)) in Hx by lia. exact Hx.
Qed.

Lemma in_enumerate row x n :
  In (x, n) (enumerate row) <-> (n < length row)%nat /\ nth n row 0 = x.
Proof.
  unfold enumerate. rewrite in_combine_seq. rewrite Nat.sub_0_r. simpl.
  intuition lia.
Qed.

Lemma map_snd_combine_seq (row : Tensor1) s :
  map snd (combine row (seq s (length row))) = seq s (length row).
Proof.
  revert s; induction row; intros s; simpl; [reflexivity | now rewrite IHrow].
Qed.

Lemma enumerate_length row : length (enumerate row) = length row.
Proof.
  unfold enumerate. rewrite length_combine, length_seq. apply Nat.min_id.
Qed.

Lemma sort_desc_length l : length (sort_desc l) = length l.
Proof. apply Permutation_length, sort_desc_perm. Qed.

Lemma topk_row_length k row :
  (k <= length row)%nat -> length (topk_row k row) = k.
Proof.
  intros Hk. unfold topk_row.
  rewrite length_firstn, sort_desc_length, enumerate_length. lia.
Qed.

Lemma topk_row_in k row x n :
  In (x, n) (topk_row k row) -> (n < length row)%nat /\ nth n row 0 = x.
Proof.
  intros Hin. apply in_enumerate.
  apply (Permutation_in _ (sort_desc_perm _)).
  unfold topk_row in Hin.
  rewrite <- (firstn_skipn k (sort_desc (enumerate row))).
  apply in_or_app. auto.
Qed.

Lemma NoDup_app_left {A} (l1 l2 : list A) : NoDup (l1 ++ l2) -> NoDup l1.
Proof.
  induction l1 as [|x l1 IH]; simpl; intros H; [constructor|].
  inversion H as [|? ? Hnin Hnd]; subst. constructor.
  - intros Hin. apply Hnin. apply in_or_app. auto.
  - auto.
Qed.

Lemma topk_row_NoDup k row : NoDup (map snd (topk_row k row)).
Proof.
  unfold topk_row. rewrite <- firstn_map.
  apply NoDup_app_left with (l2 := skipn k (map snd (sort_desc (enumerate row)))).
  rewrite firstn_skipn.
  apply (Permutation_NoDup
           (Permutation_sym (Permutation_map snd (sort_desc_perm (enumerate row))))).
  unfold enumerate. rewrite map_snd_combine_seq. apply seq_NoDup.
Qed.

Lemma topk_row_sorted k row : StronglySorted desc (topk_row k row).
Proof.
  unfold topk_row.
  pose proof (sort_desc_sorted (enumerate row)) as Hs.
  rewrite <- (firstn_skipn k) in Hs.
  revert Hs. generalize (firstn k (sort_desc (enumerate row))) as l1.
  generalize (skipn k (sort_desc (enumerate row))) as l2.
  intros l2 l1; induction l1 as [|a l1 IH]; simpl; intros Hs; [constructor|].
  inversion Hs as [|? ? Hs' Hall]; subst.
  constructor; [auto|].
  rewrite Forall_app in Hall. tauto.
Qed.



(** ** Index assignment *)

Lemma index_put_length t i pos idx vals :
  length (index_put t i pos idx vals) = length t.
Proof.
  revert t idx vals; induction pos as [|p pos IH]; intros t [|v idx] [|x vals];
    simpl; auto.
  rewrite IH. apply set3_length.
Qed.

Lemma index_put_seq_len t i pos idx vals i' :
  seq_len (index_put t i pos idx vals) i' = seq_len t i'.
Proof.
  revert t idx vals; induction pos as [|p pos IH]; intros t [|v idx] [|x vals];
    simpl; auto.
  rewrite IH. apply set3_seq_len.
Qed.

Lemma index_put_row_len t i pos idx vals i' p' :
  row_len (index_put t i pos idx vals) i' p' = row_len t i' p'.
Proof.
  revert t idx vals; induction pos as [|p pos IH]; intros t [|v idx] [|x vals];
    simpl; auto.
  rewrite IH. apply set3_row_len.
Qed.

(** A cell that no (position, index) pair of the assignment names keeps its
    value. *)
Lemma index_put_other t i pos idx vals i' p' v' :
  (forall n, (n < length pos)%nat -> (n < length idx)%nat ->
             ~ (i = i' /\ nth n pos 0%nat = p' /\ nth n idx 0%nat = v')) ->
  get3 (index_put t i pos idx vals) i' p' v' = get3 t i' p' v'.
Proof.
  revert t idx vals; induction pos as [|p pos IH]; intros t [|v idx] [|x vals] Hno;
    simpl; auto.
  rewrite IH.
  - apply get3_set3_other. intros Heq. inversion Heq; subst.
    apply (Hno 0%nat); simpl; auto with arith.
  - intros n Hp Hi. apply (Hno (S n)); simpl; lia.
Qed.

Lemma index_put_hit t i pos idx vals n :
  NoDup pos ->
  length idx = length pos -> length vals = length pos ->
  (n < length pos)%nat ->
  (nth n idx 0%nat < row_len t i (nth n pos 0%nat))%nat ->
  get3 (index_put t i pos idx vals) i (nth n pos 0%nat) (nth n idx 0%nat)
  = nth n vals 0.
Proof.
  revert t idx vals n; induction pos as [|p pos IH];
    intros t [|v idx] [|x vals] n Hnd Hli Hlv Hn Hb; simpl in *; try lia.
  inversion Hnd as [|? ? Hnin Hnd']; subst.
  destruct n as [|n].
  - rewrite index_put_other.
    + apply get3_set3_same. exact Hb.
    + intros m Hm _ (_ & Hp & _). apply Hnin. rewrite <- Hp. apply nth_In. exact Hm.
  - apply IH; try lia; auto.
    rewrite set3_row_len. exact Hb.
Qed.

(** ** The scatter loop *)

Lemma nth_map_lt {A B} (f : A -> B) (l : list A) n d d' :
  (n < length l)%nat -> nth n (map f l) d' = f (nth n l d).
Proof.
  intros Hn. rewrite (nth_indep _ d' (f d)) by (rewrite length_map; exact Hn).
  apply map_nth.
Qed.

Lemma scatter_unfold inputs i j width indices lo :
  scatter inputs i j width indices lo
  = fold_left (scatter_step i (nonzero j) indices lo) (seq 0 width) inputs.
Proof. reflexivity. Qed.

Lemma fold_scatter_row_len i pos indices lo cs inp i' p' :
  row_len (fold_left (scatter_step i pos indices lo) cs inp) i' p'
  = row_len inp i' p'.
Proof.
  revert inp; induction cs as [|c cs IH]; intros inp; simpl; auto.
  rewrite IH. apply index_put_row_len.
Qed.

Lemma fold_scatter_seq_len i pos indices lo cs inp i' :
  seq_len (fold_left (scatter_step i pos indices lo) cs inp) i'
  = seq_len inp i'.
Proof.
  revert inp; induction cs as [|c cs IH]; intros inp; simpl; auto.
  rewrite IH. apply index_put_seq_len.
Qed.

Lemma fold_scatter_length i pos indices lo cs inp :
  length (fold_left (scatter_step i pos indices lo) cs inp) = length inp.
Proof.
  revert inp; induction cs as [|c cs IH]; intros inp; simpl; auto.
  rewrite IH. apply index_put_length.
Qed.

(** A cell keeps its value unless some column [c] of the loop and some
    masked position [t] name it. *)
Lemma fold_scatter_other i pos indices lo cs inp i' p' v' :
  (forall c t, In c cs -> (t < length pos)%nat -> (t < length indices)%nat ->
               ~ (i = i' /\ nth t pos 0%nat = p'
                  /\ nth c (nth t indices []) 0%nat = v')) ->
  get3 (fold_left (scatter_step i pos indices lo) cs inp) i' p' v'
  = get3 inp i' p' v'.
Proof.
  revert inp; induction cs as [|c cs IH]; intros inp Hno; simpl; auto.
  rewrite IH by (intros c' t Hc; apply Hno; simpl; auto).
  unfold scatter_step. apply index_put_other.
  intros n Hp Hi. unfold column in *. rewrite length_map in Hi.
  rewrite (nth_map_lt _ _ _ []) by exact Hi.
  apply Hno; simpl; auto.
Qed.

Lemma fold_scatter_hit i pos indices lo cs inp t c :
  NoDup pos -> NoDup cs ->
  length indices = length pos -> length lo = length pos ->
  (t < length pos)%nat ->
  (forall c', In c' cs -> (c' < length (nth t indices []))%nat) ->
  NoDup (nth t indices []) ->
  In c cs ->
  (nth c (nth t indices []) 0%nat < row_len inp i (nth t pos 0%nat))%nat ->
  get3 (fold_left (scatter_step i pos indices lo) cs inp)
       i (nth t pos 0%nat) (nth c (nth t indices []) 0%nat)
  = nth c (nth t lo []) 0.
Proof.
  intros Hpos Hcs Hli Hlo Ht Hw Hidx.
  revert inp; induction cs as [|c0 cs IH]; intros inp Hc Hb; simpl in *;
    [contradiction|].
  inversion Hcs as [|? ? Hnin Hcs']; subst.
  destruct Hc as [->|Hc].
  - rewrite fold_scatter_other.
    + unfold scatter_step.
      pose proof (index_put_hit inp i pos (column 0%nat c indices)
                    (column 0 c lo) t Hpos) as Hhit.
      unfold column in *. rewrite !length_map in Hhit.
      rewrite (nth_map_lt _ indices t [] 0%nat) in Hhit by lia.
      rewrite (nth_map_lt _ lo t [] 0) in Hhit by lia.
      apply Hhit; auto.
    + intros c' t' Hc' Ht' _ (_ & Hp & Hv).
      assert (t' = t) as ->.
      { apply (proj1 (NoDup_nth pos 0%nat) Hpos); auto. }
      assert (c' = c) as ->.
      { apply (proj1 (NoDup_nth (nth t indices []) 0%nat) Hidx); auto. }
      contradiction.
  - apply IH; auto.
    unfold scatter_step. rewrite index_put_row_len. exact Hb.
Qed.


(** ** Boolean masks *)

Lemma in_nonzero_from s mask p :
  In p (nonzero_from s mask) <->
  (s <= p)%nat /\ nth (p - s) mask false = true.
Proof.
  revert s; induction mask as [|b mask IH]; intros s; simpl.
  - split; [contradiction|]. intros [_ H]. destruct (p - s)%nat; discriminate.
  - assert (Hstep : forall q, (S s <= q)%nat ->
                      nth (q - s) (b :: mask) false = nth (q - S s) mask false).
    { intros q Hq. replace (q - s)%nat with (S (q - S s)) by lia. reflexivity. }
    destruct b; simpl; rewrite ?IH.
    + split.
      * intros [<- | [Hle Hn]].
        -- rewrite Nat.sub_diag. auto.
        -- split; [lia|]. rewrite <- Hstep in Hn by lia. exact Hn.
      * intros [Hle Hn]. destruct (Nat.eq_dec s p) as [|Hne]; [auto|].
        right. split; [lia|]. rewrite <- Hstep by lia. exact Hn.
    + split.
      * intros [Hle Hn]. split; [lia|]. rewrite <- Hstep in Hn by lia. exact Hn.
      * intros [Hle Hn]. destruct (Nat.eq_dec s p) as [->|Hne].
        -- rewrite Nat.sub_diag in Hn. discriminate.
        -- split; [lia|]. rewrite <- Hstep by lia. exact Hn.
Qed.

Lemma in_nonzero mask p : In p (nonzero mask) <-> nth p mask false = true.
Proof.
  unfold nonzero. rewrite in_nonzero_from, Nat.sub_0_r. intuition lia.
Qed.

Lemma nonzero_from_NoDup s mask : NoDup (nonzero_from s mask).
Proof.
  revert s; induction mask as [|b mask IH]; intros s; simpl; [constructor|].
  destruct b; auto. constructor; auto.
  rewrite in_nonzero_from. lia.
Qed.

Lemma nonzero_NoDup mask : NoDup (nonzero mask).
Proof. apply nonzero_from_NoDup. Qed.

Lemma nonzero_lt mask p : In p (nonzero mask) -> (p < length mask)%nat.
Proof.
  rewrite in_nonzero. intros H.
  destruct (Nat.lt_ge_cases p (length mask)) as [|Hge]; auto.
  rewrite nth_overflow in H by exact Hge. discriminate.
Qed.


(** A position is masked exactly when its token id is the mask token id. *)
Lemma is_masked_spec self input_ids i p :
  is_masked self input_ids i p = true <->
  nth_error (nth i input_ids []) p = Some (mask_token_id self).
Proof.
  unfold is_masked, masked_index.
  generalize (nth i input_ids []) as ids. intros ids; revert p.
  induction ids as [|tok ids IH]; intros [|p]; simpl;
    try (split; discriminate); auto.
  rewrite Z.eqb_eq. split; [intros ->; reflexivity | intros H; now inversion H].
Qed.

(** ** One sentence *)

Section Sentence.

Variables (self : CustomBERTModel) (input_ids : TokenIds) (output : Tensor3).

Lemma topk_indices_length i p :
  (p < seq_len output i)%nat ->
  (forall row, In row (nth i output []) -> (topk_k self <= length row)%nat) ->
  length (topk_indices self output i p) = topk_k self.
Proof.
  intros Hp Hk. unfold topk_indices. rewrite length_map.
  apply topk_row_length. apply Hk. apply nth_In. exact Hp.
Qed.

Lemma topk_indices_bound i p c :
  (c < length (topk_indices self output i p))%nat ->
  (nth c (topk_indices self output i p) 0%nat < row_len output i p)%nat.
Proof.
  unfold topk_indices, row_len, logits_at. rewrite length_map. intros Hc.
  rewrite (nth_map_lt _ _ _ (0, 0%nat)) by exact Hc.
  pose proof (nth_In _ (0, 0%nat) Hc) as Hin.
  destruct (nth c _ _) as [x n] in *. simpl.
  apply topk_row_in in Hin. tauto.
Qed.

Lemma forward_sentence_spec inputs i :
  sentence_ok self input_ids output i ->
  (forall p, row_len inputs i p = row_len output i p) ->
  exists T,
    forward_sentence self input_ids output inputs i = Some T /\
    length T = length inputs /\
    (forall i', seq_len T i' = seq_len inputs i') /\
    (forall i' p', row_len T i' p' = row_len inputs i' p') /\
    (forall p c,
        is_masked self input_ids i p = true -> (c < topk_k self)%nat ->
        get3 T i p (nth c (topk_indices self output i p) 0%nat)
        = nth c (rescored self output i p) 0) /\
    (forall i' p' v',
        i' <> i \/ is_masked self input_ids i p' = false
        \/ ~ In v' (topk_indices self output i p') ->
        get3 T i' p' v' = get3 inputs i' p' v').
Proof.
  intros (Hi & Hlen & Hk) Hshape.
  unfold forward_sentence.
  rewrite (nth_error_nth' input_ids [] Hi).
  fold (masked_index self input_ids i).
  set (j := masked_index self input_ids i).
  assert (Hj : length j = seq_len output i).
  { unfold j, masked_index. rewrite length_map. exact Hlen. }
  unfold bool_index. unfold seq_len in Hj. rewrite Hj, Nat.eqb_refl.
  unfold topk.
  assert (Hguard : forallb (fun row => Nat.leb (topk_k self) (length row))
                     (nth i output []) = true).
  { apply forallb_forall. intros row Hrow. apply Nat.leb_le. auto. }
  rewrite Hguard.
  set (pos := nonzero j).
  set (logits := map (fun p => nth p (nth i output []) []) pos).
  set (indices := map (fun row => map snd (topk_row (topk_k self) row)) logits).
  set (lo := map softmax
               (map (linear (out_weight self) (out_bias self))
                  (map (fun row => map fst (topk_row (topk_k self) row)) logits))).
  assert (Hpos_lt : forall t, (t < length pos)%nat ->
                      (nth t pos 0%nat < seq_len output i)%nat).
  { intros t Ht. unfold seq_len. rewrite <- Hj. apply nonzero_lt.
    apply nth_In. exact Ht. }
  assert (Hidx : forall t, (t < length pos)%nat ->
                   nth t indices [] = topk_indices self output i (nth t pos 0%nat)).
  { intros t Ht. unfold indices, logits.
    rewrite nth_map_lt with (d := @nil R) by (rewrite length_map; exact Ht).
    rewrite nth_map_lt with (d := 0%nat) by exact Ht. reflexivity. }
  assert (Hlo : forall t, (t < length pos)%nat ->
                  nth t lo [] = rescored self output i (nth t pos 0%nat)).
  { intros t Ht. unfold lo, logits.
    rewrite nth_map_lt with (d := @nil R) by (rewrite !length_map; exact Ht).
    rewrite nth_map_lt with (d := @nil R) by (rewrite !length_map; exact Ht).
    rewrite nth_map_lt with (d := @nil R) by (rewrite length_map; exact Ht).
    rewrite nth_map_lt with (d := 0%nat) by exact Ht. reflexivity. }
  eexists. split; [reflexivity|].
  rewrite scatter_unfold. fold pos.
  split; [apply fold_scatter_length|].
  split; [intros; apply fold_scatter_seq_len|].
  split; [intros; apply fold_scatter_row_len|].
  split.
  - intros p c Hm Hc.
    assert (Hin : In p pos) by (apply in_nonzero; exact Hm).
    destruct (In_nth _ _ 0%nat Hin) as (t & Ht & <-).
    assert (Hwidth : length (topk_indices self output i (nth t pos 0%nat))
                     = topk_k self)
      by (apply topk_indices_length; auto).
    rewrite <- (Hidx t Ht), <- (Hlo t Ht).
    apply fold_scatter_hit.
    + apply nonzero_NoDup.
    + apply seq_NoDup.
    + unfold indices, logits. now rewrite !length_map.
    + unfold lo, logits. now rewrite !length_map.
    + exact Ht.
    + intros c' Hc'. apply in_seq in Hc'. rewrite (Hidx t Ht), Hwidth. lia.
    + rewrite (Hidx t Ht). apply topk_row_NoDup.
    + apply in_seq. lia.
    + rewrite (Hidx t Ht), Hshape. apply topk_indices_bound. lia.
  - intros i' p' v' Hcase. apply fold_scatter_other.
    intros c t Hc Ht _ (<- & Hp & Hv).
    destruct Hcase as [Hne | [Hnm | Hnin]].
    + congruence.
    + assert (Hin : In p' pos) by (rewrite <- Hp; apply nth_In; exact Ht).
      apply in_nonzero in Hin. unfold is_masked in Hnm. fold j in Hnm. congruence.
    + apply Hnin. rewrite <- Hv, <- Hp, (Hidx t Ht).
      apply nth_In. apply in_seq in Hc.
      rewrite topk_indices_length; auto; lia.
Qed.

End Sentence.


(** ** The loop over the sentences and [forward] *)

Section Batch.

Variables (self : CustomBERTModel) (input_ids : TokenIds) (output : Tensor3).

Lemma forward_loop_spec range : forall inputs,
  NoDup range ->
  (forall i, In i range -> sentence_ok self input_ids output i) ->
  (forall i p, row_len inputs i p = row_len output i p) ->
  exists T,
    forward_loop self input_ids output range inputs = Some T /\
    length T = length inputs /\
    (forall i, seq_len T i = seq_len inputs i) /\
    (forall i p, row_len T i p = row_len inputs i p) /\
    (forall i p c,
        In i range -> is_masked self input_ids i p = true ->
        (c < topk_k self)%nat ->
        get3 T i p (nth c (topk_indices self output i p) 0%nat)
        = nth c (rescored self output i p) 0) /\
    (forall i p v,
        ~ In i range \/ is_masked self input_ids i p = false
        \/ ~ In v (topk_indices self output i p) ->
        get3 T i p v = get3 inputs i p v).
Proof.
  induction range as [|i0 range IH]; intros inputs Hnd Hok Hshape; simpl.
  - exists inputs. repeat split; auto. intros i p c [].
  - inversion Hnd as [|? ? Hnin Hnd']; subst.
    destruct (forward_sentence_spec self input_ids output inputs i0)
      as (T1 & -> & Hlen1 & Hseq1 & Hrow1 & Hhit1 & Hoth1); auto.
    { apply Hok. simpl. auto. }
    destruct (IH T1) as (T & -> & Hlen & Hseq & Hrow & Hhit & Hoth); auto.
    { intros i Hi. apply Hok. simpl. auto. }
    { intros i p. rewrite Hrow1. apply Hshape. }
    exists T. split; [reflexivity|].
    split; [congruence|].
    split; [intros; rewrite Hseq; apply Hseq1|].
    split; [intros; rewrite Hrow; apply Hrow1|].
    split.
    + intros i p c [<- | Hin] Hm Hc.
      * rewrite Hoth by auto. apply Hhit1; auto.
      * apply Hhit; auto.
    + intros i p v Hcase.
      rewrite Hoth by (simpl in Hcase; tauto).
      apply Hoth1.
      destruct (Nat.eq_dec i i0) as [->|Hne]; [|auto].
      simpl in Hcase. tauto.
Qed.

Lemma zeros_like_length : length (zeros_like output) = length output.
Proof. apply length_map. Qed.

Lemma zeros_like_row i p :
  nth p (nth i (zeros_like output) []) [] = map (fun _ => 0) (logits_at output i p).
Proof.
  unfold zeros_like, logits_at.
  change (@nil Tensor1) with (map (map (fun _ : R => 0)) []) at 1.
  rewrite map_nth.
  change (@nil R) with (map (fun _ : R => 0) []) at 1.
  rewrite map_nth. reflexivity.
Qed.

Lemma zeros_like_seq_len i : seq_len (zeros_like output) i = seq_len output i.
Proof.
  unfold seq_len, zeros_like.
  change (@nil Tensor1) with (map (map (fun _ : R => 0)) []) at 1.
  rewrite map_nth. apply length_map.
Qed.

Lemma zeros_like_row_len i p : row_len (zeros_like output) i p = row_len output i p.
Proof. unfold row_len. rewrite zeros_like_row. apply length_map. Qed.

Lemma zeros_like_get3 i p v : get3 (zeros_like output) i p v = 0.
Proof.
  unfold get3. rewrite zeros_like_row.
  generalize (logits_at output i p) as row. intros row; revert v.
  induction row as [|x row IH]; intros [|v]; simpl; auto.
Qed.

(** The specification of [forward] the statements below are read off. *)
Lemma forward_spec attention_mask token_type_ids :
  bert self input_ids = Some output ->
  (forall i, (i < length output)%nat -> sentence_ok self input_ids output i) ->
  exists T,
    forward self input_ids attention_mask token_type_ids = Some T /\
    length T = length output /\
    (forall i, seq_len T i = seq_len output i) /\
    (forall i p, row_len T i p = row_len output i p) /\
    (forall i p c,
        (i < length output)%nat -> is_masked self input_ids i p = true ->
        (c < topk_k self)%nat ->
        get3 T i p (nth c (topk_indices self output i p) 0%nat)
        = nth c (rescored self output i p) 0) /\
    (forall i p v,
        is_masked self input_ids i p = false
        \/ ~ In v (topk_indices self output i p) ->
        get3 T i p v = 0).
Proof.
  intros Hbert Hok. unfold forward. rewrite Hbert.
  destruct (forward_loop_spec (seq 0 (length output)) (zeros_like output))
    as (T & HT & Hlen & Hseq & Hrow & Hhit & Hoth).
  - apply seq_NoDup.
  - intros i Hi. apply Hok. apply in_seq in Hi. lia.
  - apply zeros_like_row_len.
  - exists T. split; [exact HT|].
    split; [rewrite Hlen; apply zeros_like_length|].
    split; [intros; rewrite Hseq; apply zeros_like_seq_len|].
    split; [intros; rewrite Hrow; apply zeros_like_row_len|].
    split.
    + intros i p c Hi. apply Hhit. apply in_seq. lia.
    + intros i p v Hcase. rewrite Hoth by tauto. apply zeros_like_get3.
Qed.

(** Shapes as the callers give them. *)
Lemma shapes_sentence_ok B S V i :
  has_shape output B S V -> ids_shape input_ids B S ->
  (topk_k self <= V)%nat -> (i < length output)%nat ->
  sentence_ok self input_ids output i.
Proof.
  intros (HB & Hout) (HBi & Hids) Hk Hi.
  assert (Hin : In (nth i output []) output) by (apply nth_In; exact Hi).
  destruct (Hout _ Hin) as (HS & HV).
  unfold sentence_ok, seq_len. split; [lia|]. split.
  - rewrite HS. apply Hids. apply nth_In. lia.
  - intros row Hrow. rewrite (HV row Hrow). exact Hk.
Qed.



End Batch.


(** ** Sums, the linear layer and softmax *)


Lemma sum_all_zero row : (forall v, nth v row 0 = 0) -> sum row = 0.
Proof.
  induction row as [|x row IH]; intros Hz; simpl; [reflexivity|].
  rewrite (Hz 0%nat : x = 0), IH; [lra|].
  intros v. apply (Hz (S v)).
Qed.





















(** ** The statements about [forward] *)


Lemma toy_shapes :
  has_shape (map (map (fun tok => [IZR tok; 2; 1])) toy_ids) 1 3 3 /\
  ids_shape toy_ids 1 3.
Proof.
  split; (split; [reflexivity|]).
  - intros t2 [<-|[]]. split; [reflexivity|].
    intros row [<-|[<-|[<-|[]]]]; reflexivity.
  - intros r [<-|[]]. reflexivity.
Qed.













(** With [k = 0] nothing is written: the row of a masked position stays
    zero and does not sum to 1. *)
Lemma forward_top0_row_is_zero :
  exists T,
    forward (toy_model 0) toy_ids None None = Some T /\
    is_masked (toy_model 0) toy_ids 0 1 = true /\
    sum (nth 1 (nth 0 T []) []) = 0.
Proof.
  destruct (forward_spec (toy_model 0) toy_ids
              (map (map (fun tok => [IZR tok; 2; 1])) toy_ids) None None eq_refl)
    as (T & HT & _ & _ & _ & _ & Hzero).
  { intros i Hi. eapply shapes_sentence_ok;
      [apply toy_shapes | apply toy_shapes | simpl; lia | exact Hi]. }
  exists T. repeat split; auto.
  apply sum_all_zero. intros v. apply (Hzero 0%nat 1%nat v).
  right. simpl. tauto.
Qed.

(** ** The fresh re-weighting layer *)



(** ** Unused parameters of [forward] *)

(** C10.  [forward] never reads [attention_mask] and [token_type_ids]: two
    calls on the same model and the same [input_ids] return the same
    result whatever these two arguments are. *)
Theorem forward_ignores_mask_and_type_ids self input_ids
    (attention_mask token_type_ids attention_mask' token_type_ids' : option TokenIds) :
  forward self input_ids attention_mask token_type_ids
  = forward self input_ids attention_mask' token_type_ids'.
Proof. reflexivity. Qed.

End ModelBERTProofs.

Module InferenceProofs.
Import Inference.
Import String Ascii.
Local Open Scope string_scope.

(** ** Strings *)

Lemma append_assoc (a b c : string) : (a ++ b) ++ c = a ++ (b ++ c).
Proof. induction a as [|x a IH]; simpl; [reflexivity | now rewrite IH]. Qed.

Lemma in_choices_In v choices : in_choices v choices = true -> In v choices.
Proof.
  unfold in_choices. rewrite existsb_exists. intros (x & Hin & Heq).
  apply String.eqb_eq in Heq. subst. exact Hin.
Qed.

(** ** The parser *)

Section ParserFacts.

Context {RT : Runtime}.

Local Arguments in_choices : simpl never.

Ltac inv_action :=
  match goal with
  | H : apply_action _ ?o ?vs = Some _ |- _ =>
      destruct o; destruct vs as [|? [|? ?]]; simpl in H;
      repeat match type of H with
             | context [if ?b then _ else _] => destruct b eqn:?
             | context [match ?x with Some _ => _ | None => _ end] => destruct x eqn:?
             end;
      inversion H; subst; clear H
  end.

Lemma apply_action_ok ns o vs ns' :
  apply_action ns o vs = Some ns' -> parsed_ok ns -> parsed_ok ns'.
Proof.
  intros H (Hskip & Hintra & Hinter).
  inv_action; unfold parsed_ok; simpl; repeat split; auto;
    match goal with
    | Hc : in_choices _ _ = true |- _ => apply in_choices_In in Hc; exact Hc
    end.
Qed.

Lemma finish_ok st ns :
  finish st = Some ns -> parsed_ok (ns_of st) -> parsed_ok ns.
Proof.
  unfold finish. destruct (pending st) as [[o vs]|].
  - apply apply_action_ok.
  - intros H; inversion H; auto.
Qed.

Lemma step_ok st arg st' :
  step st arg = Some st' -> parsed_ok (ns_of st) -> parsed_ok (ns_of st').
Proof.
  unfold step. destruct (String.eqb arg "--"); [discriminate|].
  destruct (classify arg) as [|o explicit| |]; try discriminate.
  - destruct (pending st) as [[o vs]|]; [|discriminate].
    destruct (can_take o vs); [|discriminate].
    intros H; inversion H; auto.
  - destruct (finish st) as [ns|] eqn:Hfin; [|discriminate].
    intros H Hok. pose proof (finish_ok _ _ Hfin Hok) as Hns.
    destruct explicit as [value|].
    + destruct (nargs o); try discriminate;
        (destruct (apply_action ns o [value]) as [ns'|] eqn:Hact; [|discriminate];
         inversion H; subst; simpl; eapply apply_action_ok; eauto).
    + inversion H; subst; auto.
Qed.

Lemma parse_loop_ok argv : forall st ns,
  parse_loop st argv = Some ns -> parsed_ok (ns_of st) -> parsed_ok ns.
Proof.
  induction argv as [|arg argv IH]; intros st ns; simpl.
  - apply finish_ok.
  - destruct (step st arg) as [st'|] eqn:Hstep; [|discriminate].
    intros H Hok. eapply IH; eauto. eapply step_ok; eauto.
Qed.

Lemma defaults_ok : parsed_ok defaults.
Proof. unfold parsed_ok, defaults; simpl. auto. Qed.

Lemma parse_args_ok argv args : parse_args argv = Some args -> parsed_ok args.
Proof. intros H. eapply parse_loop_ok; [exact H | apply defaults_ok]. Qed.

(** *** The eraser path list *)










End ParserFacts.


(** ** [main] *)

Section MainFacts.

Context {RT : Runtime} {W : World}.

Lemma in_trace_bind {A B} (m : M A) (f : A -> M B) ev :
  In ev (trace (bind m f)) ->
  In ev (trace m) \/ exists a, result m = inr a /\ In ev (trace (f a)).
Proof.
  unfold trace, result, bind. destruct m as [t1 [e|a]]; simpl; auto.
  destruct (f a) as [t2 r] eqn:Hf. simpl. intros Hin.
  apply in_app_or in Hin. destruct Hin; auto.
  right. exists a. rewrite Hf. auto.
Qed.

Lemma result_bind_inr {A B} (m : M A) (f : A -> M B) b :
  result (bind m f) = inr b ->
  exists a, result m = inr a /\ result (f a) = inr b.
Proof.
  unfold result, bind. destruct m as [t1 [e|a]]; simpl; [discriminate|].
  destruct (f a) as [t2 r] eqn:Hf. simpl. intros ->.
  exists a. rewrite Hf. auto.
Qed.

Lemma bind_inr {A B} (m : M A) (f : A -> M B) a :
  result m = inr a ->
  bind m f = ((trace m ++ trace (f a))%list, result (f a)).
Proof.
  unfold result, trace, bind. destruct m as [t1 r]; simpl. intros ->.
  destruct (f a); reflexivity.
Qed.

(** *** The two branches *)

Ltac run_branch :=
  unfold instantiate, dump, call, bind, ret, outcome, trace, result; simpl;
  repeat match goal with
         | |- context [models_getattr ?n] =>
             destruct (models_getattr n) as [?cls|] eqn:?Hcls; simpl
         | |- context [match ?c ?w ?l ?e ?b with inl _ => _ | inr _ => _ end] =>
             destruct (c w l e b) as [?|?model] eqn:?Hmodel; simpl
         | |- context [IntrasentenceInferenceRunner_run ?a ?b ?c ?d ?e ?f ?g] =>
             destruct (IntrasentenceInferenceRunner_run a b c d e f g)
               as [?|?res] eqn:?Hrun; simpl
         | |- context [IntersentenceInferenceRunner_run ?a ?b ?c ?d ?e ?f ?g] =>
             destruct (IntersentenceInferenceRunner_run a b c d e f g)
               as [?|?res] eqn:?Hrun; simpl
         | |- context [json_dump ?p ?c] =>
             destruct (json_dump p c) eqn:?Hdump; simpl
         end.

Lemma intrasentence_branch_skipped args tok locals :
  skip_intrasentence args = true ->
  intrasentence_branch args tok locals = ret locals.
Proof. unfold intrasentence_branch. intros ->. reflexivity. Qed.

Lemma intersentence_branch_skipped args tok locals :
  skip_intersentence args = true ->
  intersentence_branch args tok locals = ret locals.
Proof. unfold intersentence_branch. intros ->. reflexivity. Qed.

(** A branch that returns has made its four calls, each of which returned. *)
Lemma intrasentence_branch_returns args tok locals locals' :
  skip_intrasentence args = false ->
  result (intrasentence_branch args tok locals) = inr locals' ->
  exists cls model results,
    models_getattr (intrasentence_model args) = Some cls /\
    cls (str_or (ckpt_path args) (pretrained_model_name args))
        (lang_of (intrasentence_data_path_of args))
        (eraser_path_list_of args) (eraser_before_lang_adapt args) = inr model /\
    IntrasentenceInferenceRunner_run model tok
      (intrasentence_data_path_of args) (pretrained_model_name args)
      (batch_size args) (tiny_eval_frac args) (softmax_temperature args)
    = inr results /\
    locals' = (Some (lang_of (intrasentence_data_path_of args)),
               dict_set (snd locals) "intrasentence" results) /\
    trace (intrasentence_branch args tok locals)
    = [EGetattr (intrasentence_model args);
       EConstruct (intrasentence_model args)
         (str_or (ckpt_path args) (pretrained_model_name args))
         (lang_of (intrasentence_data_path_of args))
         (eraser_path_list_of args) (eraser_before_lang_adapt args);
       ERunIntrasentence (intrasentence_data_path_of args)
         (pretrained_model_name args) (batch_size args)
         (tiny_eval_frac args) (softmax_temperature args);
       EDump (path_join (output_dir_of args)
                (intrasentence_file args (lang_of (intrasentence_data_path_of args))))
             (DResults results)].
Proof.
  unfold intrasentence_branch. intros ->. simpl negb. cbv iota.
  run_branch; intros H; try discriminate.
  inversion H; subst. eauto 10.
Qed.

Lemma intrasentence_branch_events args tok locals ev :
  In ev (trace (intrasentence_branch args tok locals)) ->
  skip_intrasentence args = false /\
  (ev = EGetattr (intrasentence_model args) \/
   ev = EConstruct (intrasentence_model args)
          (str_or (ckpt_path args) (pretrained_model_name args))
          (lang_of (intrasentence_data_path_of args))
          (eraser_path_list_of args) (eraser_before_lang_adapt args) \/
   ev = ERunIntrasentence (intrasentence_data_path_of args)
          (pretrained_model_name args) (batch_size args)
          (tiny_eval_frac args) (softmax_temperature args) \/
   exists results,
     ev = EDump (path_join (output_dir_of args)
                   (intrasentence_file args (lang_of (intrasentence_data_path_of args))))
                (DResults results)).
Proof.
  unfold intrasentence_branch.
  destruct (skip_intrasentence args); simpl negb; cbv iota; [intros []|].
  split; [reflexivity|]. revert H.
  run_branch; intros H; repeat (destruct H as [<-|H]; eauto 6); contradiction.
Qed.

Lemma intersentence_branch_events args tok locals ev :
  In ev (trace (intersentence_branch args tok locals)) ->
  skip_intersentence args = false /\
  (ev = EGetattr (intersentence_model args) \/
   ev = EConstruct (intersentence_model args)
          (str_or (ckpt_path args) (pretrained_model_name args))
          (lang_of (intersentence_data_path_of args))
          (eraser_path_list_of args) (eraser_before_lang_adapt args) \/
   ev = ERunIntersentence (intersentence_data_path_of args)
          (pretrained_model_name args) (batch_size args)
          (tiny_eval_frac args) (softmax_temperature args) \/
   exists results,
     ev = EDump (path_join (output_dir_of args)
                   (intersentence_file args (lang_of (intersentence_data_path_of args))))
                (DResults results)).
Proof.
  unfold intersentence_branch.
  destruct (skip_intersentence args); simpl negb; cbv iota; [intros []|].
  split; [reflexivity|]. revert H.
  run_branch; intros H; repeat (destruct H as [<-|H]; eauto 6); contradiction.
Qed.

(** A branch keeps the entries of [combined_results] under other keys and
    never unbinds [lang]. *)
Lemma intersentence_branch_keeps args tok locals locals' results :
  result (intersentence_branch args tok locals) = inr locals' ->
  dict_get (snd locals) "intrasentence" = Some results ->
  fst locals <> None ->
  dict_get (snd locals') "intrasentence" = Some results /\ fst locals' <> None.
Proof.
  unfold intersentence_branch.
  destruct (skip_intersentence args); simpl negb; cbv iota.
  - unfold ret, result. simpl. intros H; inversion H; subst. auto.
  - run_branch; intros H; try discriminate. inversion H; subst; clear H.
    intros Hget _. simpl. split; [|discriminate].
    clear - Hget. induction (snd locals) as [|[k v] d IH]; simpl in *; [discriminate|].
    destruct (String.eqb k "intrasentence") eqn:Hk.
    + apply String.eqb_eq in Hk. subst k. simpl. exact Hget.
    + destruct (String.eqb k "intersentence"); simpl; rewrite Hk; auto.
Qed.

(** *** The calls of [main] *)

Lemma main_events args ev :
  In ev (trace (main args)) ->
  ev = EMakedirs (output_dir_of args) \/
  ev = EFromPretrained (pretrained_model_name args) \/
  (exists tok locals, In ev (trace (intrasentence_branch args tok locals))) \/
  (exists tok locals, In ev (trace (intersentence_branch args tok locals))) \/
  (exists lang d,
     ev = EDump (path_join (output_dir_of args) (combined_file args lang)) (DDict d)
     /\ (skip_intrasentence args = false \/ skip_intersentence args = false)).
Proof.
  unfold main. intros H.
  apply in_trace_bind in H. destruct H as [H | (u & _ & H)].
  { destruct H as [<-|[]]. auto. }
  apply in_trace_bind in H. destruct H as [H | (tok & _ & H)].
  { destruct H as [<-|[]]. auto. }
  apply in_trace_bind in H. destruct H as [H | (locals1 & H1 & H)].
  { right. right. left. eauto. }
  apply in_trace_bind in H. destruct H as [H | (locals2 & H2 & H)].
  { right. right. right. left. eauto. }
  destruct (fst locals2) as [lang|] eqn:Hlang; [|destruct H].
  destruct H as [<-|[]].
  right. right. right. right. exists lang, (snd locals2). split; [reflexivity|].
  destruct (skip_intrasentence args) eqn:Hs1; [|auto].
  destruct (skip_intersentence args) eqn:Hs2; [|auto].
  exfalso. cbv beta in H1, H2.
  rewrite (intrasentence_branch_skipped _ _ _ Hs1) in H1.
  rewrite (intersentence_branch_skipped _ _ _ Hs2) in H2.
  unfold ret, result in H1, H2. simpl in H1, H2.
  inversion H1; subst. inversion H2; subst. discriminate.
Qed.

Lemma trace_call {A} ev (r : Exn + A) : trace (call ev r) = [ev].
Proof. reflexivity. Qed.

(** C5.  When intrasentence inference is not skipped and [main] returns,
    [main] has looked up the class named by [args.intrasentence_model],
    built the model, run the intrasentence runner with it, written the
    runner's results to the intrasentence file of the output directory,
    and its last call writes the combined-results file with a dictionary
    that holds the same results under the key [intrasentence]. *)
Theorem main_writes_intrasentence_results args :
  skip_intrasentence args = false ->
  result (main args) = inr tt ->
  exists tokenizer cls model results rest lang combined,
    from_pretrained (pretrained_model_name args) = inr tokenizer /\
    models_getattr (intrasentence_model args) = Some cls /\
    cls (str_or (ckpt_path args) (pretrained_model_name args))
        (lang_of (intrasentence_data_path_of args))
        (eraser_path_list_of args) (eraser_before_lang_adapt args) = inr model /\
    IntrasentenceInferenceRunner_run model tokenizer
      (intrasentence_data_path_of args) (pretrained_model_name args)
      (batch_size args) (tiny_eval_frac args) (softmax_temperature args)
    = inr results /\
    trace (main args)
    = ([EMakedirs (output_dir_of args);
        EFromPretrained (pretrained_model_name args);
        EGetattr (intrasentence_model args);
        EConstruct (intrasentence_model args)
          (str_or (ckpt_path args) (pretrained_model_name args))
          (lang_of (intrasentence_data_path_of args))
          (eraser_path_list_of args) (eraser_before_lang_adapt args);
        ERunIntrasentence (intrasentence_data_path_of args)
          (pretrained_model_name args) (batch_size args)
          (tiny_eval_frac args) (softmax_temperature args);
        EDump (path_join (output_dir_of args)
                 (intrasentence_file args (lang_of (intrasentence_data_path_of args))))
              (DResults results)]
       ++ rest
       ++ [EDump (path_join (output_dir_of args) (combined_file args lang))
                 (DDict combined)])%list /\
    dict_get combined "intrasentence" = Some results.
Proof.
  intros Hskip Hres. unfold main in *.
  apply result_bind_inr in Hres. destruct Hres as (u & Hmk & Hres).
  rewrite (bind_inr _ _ _ Hmk), trace_call.
  apply result_bind_inr in Hres. destruct Hres as (tok & Htok & Hres).
  rewrite (bind_inr _ _ _ Htok), trace_call.
  apply result_bind_inr in Hres. destruct Hres as (locals1 & H1 & Hres).
  rewrite (bind_inr _ _ _ H1).
  apply result_bind_inr in Hres. destruct Hres as (locals2 & H2 & Hres).
  rewrite (bind_inr _ _ _ H2).
  destruct (intrasentence_branch_returns _ _ _ _ Hskip H1)
    as (cls & model & results & Hcls & Hmodel & Hrun & -> & Htrace).
  destruct (intersentence_branch_keeps args tok _ locals2 results H2)
    as [Hget Hlang]; [reflexivity | discriminate |].
  destruct (fst locals2) as [lang|] eqn:Hfst; [|congruence].
  exists tok, cls, model, results,
    (trace (intersentence_branch args tok
              (Some (lang_of (intrasentence_data_path_of args)),
               dict_set [] "intrasentence" results))),
    lang, (snd locals2).
  repeat (split; [assumption|]).
  split; [|exact Hget].
  unfold trace at 1. simpl fst. rewrite Htrace. reflexivity.
Qed.

(** C8.  When both branches are skipped [main] never returns and never
    writes a JSON file; if creating the output directory and loading the
    tokenizer succeed, it raises [UnboundLocalError] for [lang]. *)
Theorem main_unbound_lang args :
  skip_intrasentence args = true ->
  skip_intersentence args = true ->
  (forall u, result (main args) <> inr u) /\
  (os_makedirs (output_dir_of args) = None ->
   (exists tok, from_pretrained (pretrained_model_name args) = inr tok) ->
   result (main args) = inl (UnboundLocalError "lang")) /\
  (forall path content, ~ In (EDump path content) (trace (main args))).
Proof.
  intros Hs1 Hs2. split; [|split].
  - intros u Hres. unfold main in Hres.
    apply result_bind_inr in Hres. destruct Hres as (? & _ & Hres).
    apply result_bind_inr in Hres. destruct Hres as (tok & _ & Hres).
    rewrite (intrasentence_branch_skipped _ _ _ Hs1) in Hres.
    apply result_bind_inr in Hres. destruct Hres as (l1 & H1 & Hres).
    rewrite (intersentence_branch_skipped _ _ _ Hs2) in Hres.
    apply result_bind_inr in Hres. destruct Hres as (l2 & H2 & Hres).
    unfold ret, result in H1, H2. simpl in H1, H2.
    inversion H1; subst. inversion H2; subst. discriminate.
  - intros Hmk (tok & Htok). unfold main.
    rewrite Hmk, Htok.
    rewrite (bind_inr _ _ tt) by reflexivity.
    rewrite (bind_inr _ _ tok) by reflexivity.
    rewrite (intrasentence_branch_skipped _ _ _ Hs1).
    cbn [bind ret].
    rewrite (intersentence_branch_skipped _ _ _ Hs2).
    reflexivity.
  - intros path content Hin.
    apply main_events in Hin.
    destruct Hin as [H | [H | [(tok & l & H) | [(tok & l & H) | (lang & d & _ & H)]]]];
      try discriminate.
    + apply intrasentence_branch_events in H. destruct H; congruence.
    + apply intersentence_branch_events in H. destruct H; congruence.
    + destruct H; congruence.
Qed.




Lemma intersentence_branch_runs args tok locals locals' :
  skip_intersentence args = false ->
  result (intersentence_branch args tok locals) = inr locals' ->
  In (ERunIntersentence (intersentence_data_path_of args)
        (pretrained_model_name args) (batch_size args)
        (tiny_eval_frac args) (softmax_temperature args))
     (trace (intersentence_branch args tok locals)).
Proof.
  unfold intersentence_branch. intros ->. simpl negb. cbv iota.
  run_branch; intros H; try discriminate; simpl; auto.
Qed.

(** With [args.skip_intersentence] false, a run of [main] that returns has
    run the intersentence runner. *)
Lemma main_runs_intersentence_when_enabled args :
  skip_intersentence args = false ->
  result (main args) = inr tt ->
  In (ERunIntersentence (intersentence_data_path_of args)
        (pretrained_model_name args) (batch_size args)
        (tiny_eval_frac args) (softmax_temperature args))
     (trace (main args)).
Proof.
  intros Hskip Hres. unfold main in *.
  apply result_bind_inr in Hres. destruct Hres as (u & Hmk & Hres).
  rewrite (bind_inr _ _ _ Hmk).
  apply result_bind_inr in Hres. destruct Hres as (tok & Htok & Hres).
  rewrite (bind_inr _ _ _ Htok).
  apply result_bind_inr in Hres. destruct Hres as (locals1 & H1 & Hres).
  rewrite (bind_inr _ _ _ H1).
  apply result_bind_inr in Hres. destruct Hres as (locals2 & H2 & Hres).
  rewrite (bind_inr _ _ _ H2).
  pose proof (intersentence_branch_runs _ _ _ _ Hskip H2) as Hin.
  unfold trace at 1. simpl fst.
  right. right. apply in_or_app. right. apply in_or_app. left. exact Hin.
Qed.

(** C4 on the code.  Whatever the argument vector, the namespace
    [parse_args] returns has [skip_intersentence] set ([store_true] with
    [default=True]), and [main] on it never calls the intersentence
    runner. *)
Theorem parse_args_always_skips_intersentence argv args :
  parse_args argv = Some args ->
  skip_intersentence args = true /\
  forall data pretrained batch frac temperature,
    ~ In (ERunIntersentence data pretrained batch frac temperature)
         (trace (main args)).
Proof.
  intros Hparse. pose proof (parse_args_ok _ _ Hparse) as (Hskip & _).
  split; [exact Hskip|].
  intros data pretrained batch frac temperature Hin.
  apply main_events in Hin.
  destruct Hin as [H | [H | [(tok & loc & H) | [(tok & loc & H) | (lang & d & H & _)]]]];
    try discriminate.
  - apply intrasentence_branch_events in H.
    destruct H as [_ [H | [H | [H | (r & H)]]]]; discriminate.
  - apply intersentence_branch_events in H. destruct H; congruence.
Qed.



End MainFacts.


(** ** The statements on a small world *)

Example parse_flag_given :
  option_map skip_intersentence
    (@parse_args toy_runtime ["--skip-intersentence"]) = Some true.
Proof. reflexivity. Qed.

Example parse_flag_with_value :
  @parse_args toy_runtime ["--skip-intersentence=False"] = None.
Proof. reflexivity. Qed.

Example parse_ambiguous_abbreviation :
  @parse_args toy_runtime ["--skip-int"] = None.
Proof. reflexivity. Qed.

Example parse_eraser_values :
  option_map eraser_path_list
    (@parse_args toy_runtime ["--eraser-path-list"; "a.pkl"; "b.pkl"; "--batch-size"; "8"])
  = Some (Some ["a.pkl"; "b.pkl"]).
Proof. reflexivity. Qed.

Example parse_choice_rejected :
  @parse_args toy_runtime ["--intrasentence-model"; "BertForNSP"] = None.
Proof. reflexivity. Qed.

Example main_default_run :
  toy_main defaults
  = ([EMakedirs "/repo/inference_output";
      EFromPretrained "bert-base-uncased";
      EGetattr "BertForMLM";
      EConstruct "BertForMLM" "bert-base-uncased" "en" None false;
      ERunIntrasentence "/repo/data/df_intrasentence_en.pkl" "bert-base-uncased"
        16 None (toy_float "1.0");
      EDump "/repo/inference_output/intrasentence_BertForMLM_en.json"
        (DResults (toy_results "/repo/data/df_intrasentence_en.pkl"));
      EDump "/repo/inference_output/combined_results_BertForMLM_en.json"
        (DDict [("intrasentence", toy_results "/repo/data/df_intrasentence_en.pkl")])],
     inr tt).
Proof. reflexivity. Qed.

(** The empty argument vector: the flag is not given and yet set. *)
Lemma parse_args_always_skips_intersentence_witness :
  exists args,
    @parse_args toy_runtime [] = Some args /\ skip_intersentence args = true.
Proof.
  exists (@defaults toy_runtime). split; [reflexivity|].
  exact (proj1 (@parse_args_always_skips_intersentence toy_runtime toy_world
                  [] defaults eq_refl)).
Defined.

(** The default run in the small world. *)
Lemma main_writes_intrasentence_results_witness :
  exists results rest lang combined,
    fst (toy_main defaults)
    = ([EMakedirs "/repo/inference_output";
        EFromPretrained "bert-base-uncased";
        EGetattr "BertForMLM";
        EConstruct "BertForMLM" "bert-base-uncased" "en" None false;
        ERunIntrasentence "/repo/data/df_intrasentence_en.pkl" "bert-base-uncased"
          16 None (toy_float "1.0");
        EDump "/repo/inference_output/intrasentence_BertForMLM_en.json"
          (DResults results)]
       ++ rest
       ++ [EDump (path_join "/repo/inference_output"
                    ("combined_results_BertForMLM_" ++ lang ++ ".json"))
             (DDict combined)])%list /\
    dict_get combined "intrasentence" = Some results.
Proof.
  destruct (@main_writes_intrasentence_results toy_runtime toy_world defaults
              eq_refl eq_refl)
    as (tok & cls & model & results & rest & lang & combined
        & _ & _ & _ & _ & Htrace & Hget).
  exists results, rest, lang, combined. split; [|exact Hget].
  exact Htrace.
Defined.




(** Intrasentence skipped by its flag, intersentence by its default. *)
Lemma main_unbound_lang_witness :
  exists args,
    @parse_args toy_runtime ["--skip-intrasentence"] = Some args /\
    snd (toy_main args) = inl (UnboundLocalError "lang") /\
    forall path content, ~ In (EDump path content) (fst (toy_main args)).
Proof.
  exists (set_skip_intrasentence (@defaults toy_runtime) true).
  split; [reflexivity|].
  destruct (@main_unbound_lang toy_runtime toy_world
              (set_skip_intrasentence defaults true) eq_refl eq_refl)
    as (_ & Hraises & Hnofile).
  split.
  - apply Hraises; [reflexivity | exists "bert-base-uncased"; reflexivity].
  - exact Hnofile.
Defined.

End InferenceProofs.

(* ================================================================== *)
(** * Further properties of [refine_lm/model_BERT.py] *)
(* ================================================================== *)

Module ModelBERTMore.
Import ModelBERT ModelBERTProofs.
Local Open Scope R_scope.

(** ** When [forward] raises *)

Lemma forward_sentence_None_iff self input_ids output inputs i :
  forward_sentence self input_ids output inputs i = None <->
  sentence_check self input_ids output i = false.
Proof.
  unfold forward_sentence, sentence_check, bool_index, topk.
  destruct (nth_error input_ids i) as [ids_i|]; [|tauto].
  rewrite length_map.
  destruct (Nat.eqb (length ids_i) (length (nth i output []))); simpl;
    [|tauto].
  destruct (forallb (fun row => Nat.leb (topk_k self) (length row))
              (nth i output [])); simpl; split; congruence.
Qed.

Lemma forward_loop_None_iff self input_ids output range : forall inputs,
  forward_loop self input_ids output range inputs = None <->
  exists i, In i range /\ sentence_check self input_ids output i = false.
Proof.
  induction range as [|i0 range IH]; intros inputs; simpl.
  - split; [discriminate | intros (i & [] & _)].
  - destruct (forward_sentence self input_ids output inputs i0) as [inputs'|] eqn:Hs.
    + rewrite IH. split.
      * intros (i & Hi & Hc). eauto.
      * intros (i & [<- | Hi] & Hc); [|eauto].
        rewrite <- (forward_sentence_None_iff _ _ _ inputs) in Hc. congruence.
    + split; [|reflexivity]. intros _. exists i0. split; [auto|].
      rewrite <- (forward_sentence_None_iff _ _ _ inputs). exact Hs.
Qed.

(** [forward] raises exactly when the wrapped model raises or some
    sentence of its output fails a check of the loop. *)
Lemma forward_raises_iff self input_ids attention_mask token_type_ids :
  forward self input_ids attention_mask token_type_ids = None <->
  bert self input_ids = None \/
  exists output i,
    bert self input_ids = Some output /\ (i < length output)%nat /\
    sentence_check self input_ids output i = false.
Proof.
  unfold forward. destruct (bert self input_ids) as [output|].
  - rewrite forward_loop_None_iff. split.
    + intros (i & Hi & Hc). right. exists output, i.
      apply in_seq in Hi. repeat split; auto; lia.
    + intros [H | (o & i & Ho & Hi & Hc)]; [discriminate|].
      inversion Ho; subst. exists i. split; [apply in_seq; lia | exact Hc].
  - split; auto.
Qed.

(** With more logits requested than the vocabulary has, [forward] raises
    on every batch that has a sentence with a token. *)
Lemma forward_raises_on_small_vocabulary self input_ids attention_mask
    token_type_ids output B S V :
  bert self input_ids = Some output ->
  has_shape output B S V ->
  (1 <= B)%nat -> (1 <= S)%nat ->
  (V < topk_k self)%nat ->
  forward self input_ids attention_mask token_type_ids = None.
Proof.
  intros Hbert (HB & Hout) HB1 HS1 Hk.
  unfold forward. rewrite Hbert. apply forward_loop_None_iff.
  exists 0%nat. split; [apply in_seq; lia|].
  unfold sentence_check. destruct (nth_error input_ids 0) as [ids_0|]; [|reflexivity].
  apply andb_false_iff. right.
  assert (Hin : In (nth 0 output []) output) by (apply nth_In; lia).
  destruct (Hout _ Hin) as (HS & HV).
  destruct (nth 0 output []) as [|row rows] eqn:Hrows; simpl in HS; [lia|].
  simpl. rewrite (HV row) by (simpl; auto).
  apply andb_false_iff. left. apply Nat.leb_gt. exact Hk.
Qed.

(** On the toy model, four logits of a vocabulary of three. *)
Lemma forward_raises_on_small_vocabulary_witness :
  forward (toy_model 4) toy_ids None None = None.
Proof.
  apply (forward_raises_on_small_vocabulary (toy_model 4) toy_ids None None
           (map (map (fun tok => [IZR tok; 2; 1])) toy_ids) 1 3 3
           eq_refl (proj1 toy_shapes)); simpl; lia.
Defined.


Lemma forallb_rows k (rows : Tensor2) V :
  (forall row, In row rows -> length row = V) -> rows <> [] ->
  forallb (fun row => Nat.leb k (length row)) rows = Nat.leb k V.
Proof.
  induction rows as [|r rows IH]; intros HV Hne; [congruence|].
  simpl. rewrite (HV r) by (simpl; auto).
  destruct rows as [|r' rows'].
  - apply andb_true_r.
  - rewrite IH; [destruct (Nat.leb k V); reflexivity | | discriminate].
    intros row Hrow. apply HV. simpl. auto.
Qed.

Lemma sentence_check_shapes self input_ids output B S V i :
  has_shape output B S V -> (1 <= S)%nat -> (i < B)%nat ->
  sentence_check self input_ids output i = true <->
  (exists ids_i, nth_error input_ids i = Some ids_i /\ length ids_i = S) /\
  (topk_k self <= V)%nat.
Proof.
  intros (HB & Hout) HS Hi.
  assert (Hin : In (nth i output []) output) by (apply nth_In; lia).
  destruct (Hout _ Hin) as (Hlen & HV).
  unfold sentence_check.
  rewrite (forallb_rows (topk_k self) (nth i output []) V HV)
    by (destruct (nth i output []); simpl in *; [lia | discriminate]).
  destruct (nth_error input_ids i) as [ids_i|].
  - rewrite andb_true_iff, Nat.eqb_eq, Nat.leb_le, Hlen. split.
    + intros [H1 H2]. split; [eauto | exact H2].
    + intros [(x & Hx & Hl) H2]. inversion Hx; subst. auto.
  - split; [discriminate | intros [(x & Hx & _) _]; discriminate].
Qed.

(** X1.  When the wrapped model returns an output of shape [B, S, V] with
    [S >= 1], [forward] returns a tensor exactly when [input_ids] has a
    row of [S] token ids for each of the [B] sentences and, unless the
    batch is empty, [k] is at most [V]; in every other case it raises. *)
Theorem forward_returns_iff self input_ids attention_mask token_type_ids
    output B S V :
  bert self input_ids = Some output ->
  has_shape output B S V ->
  (1 <= S)%nat ->
  forward self input_ids attention_mask token_type_ids <> None <->
  (forall i, (i < B)%nat ->
     exists ids_i, nth_error input_ids i = Some ids_i /\ length ids_i = S) /\
  ((1 <= B)%nat -> (topk_k self <= V)%nat).
Proof.
  intros Hbert Hsh HS. pose proof Hsh as (HB & _).
  unfold forward. rewrite Hbert. rewrite forward_loop_None_iff. split.
  - intros Hall.
    assert (Hchk : forall i, (i < B)%nat ->
                     sentence_check self input_ids output i = true).
    { intros i Hi.
      destruct (sentence_check self input_ids output i) eqn:Hc; [reflexivity|].
      exfalso. apply Hall. exists i. split; [apply in_seq; lia | exact Hc]. }
    split.
    + intros i Hi.
      apply (sentence_check_shapes self input_ids output B S V i Hsh HS Hi).
      apply Hchk. exact Hi.
    + intros HB1.
      apply (sentence_check_shapes self input_ids output B S V 0 Hsh HS);
        [lia | apply Hchk; lia].
  - intros [Hids Hk] (i & Hi & Hc). apply in_seq in Hi.
    assert (HiB : (i < B)%nat) by lia.
    assert (Ht : sentence_check self input_ids output i = true).
    { apply (sentence_check_shapes self input_ids output B S V i Hsh HS HiB).
      split; [apply Hids; exact HiB | apply Hk; lia]. }
    congruence.
Qed.

(** The toy model with [k = 2] on its sentence of three tokens. *)
Lemma forward_returns_iff_witness :
  forward (toy_model 2) toy_ids None None <> None.
Proof.
  apply (forward_returns_iff (toy_model 2) toy_ids None None
           (map (map (fun tok => [IZR tok; 2; 1])) toy_ids) 1 3 3
           eq_refl (proj1 toy_shapes)); [lia|].
  split.
  - intros [|i] Hi; [|lia]. exists [5; 103; 7]%Z. split; reflexivity.
  - intros _. simpl. lia.
Defined.

(** ** Tensors are determined by their shape and entries *)







(** ** The freshly initialised model *)







(** ** Sentences do not interact *)



End ModelBERTMore.

(* ================================================================== *)
(** * Further properties of [inference.py] *)
(* ================================================================== *)

Module InferenceMore.
Import Inference InferenceProofs.
Import String Ascii.
Local Open Scope string_scope.

(** ** The parser *)

Section ParserMore.

Context {RT : Runtime}.

Local Arguments in_choices : simpl never.

Ltac inv_action :=
  match goal with
  | H : apply_action _ ?o ?vs = Some _ |- _ =>
      destruct o; destruct vs as [|? [|? ?]]; simpl in H;
      repeat match type of H with
             | context [if ?b then _ else _] => destruct b eqn:?
             | context [match ?x with Some _ => _ | None => _ end] => destruct x eqn:?
             end;
      inversion H; subst; clear H
  end.

(** *** Invariants of the argument loop *)

Section Invariant.

Variable P : Namespace -> Prop.
Hypothesis P_action :
  forall ns o vs ns', apply_action ns o vs = Some ns' -> P ns -> P ns'.

Lemma finish_invariant st ns : finish st = Some ns -> P (ns_of st) -> P ns.
Proof.
  unfold finish. destruct (pending st) as [[o vs]|].
  - apply P_action.
  - intros H; inversion H; auto.
Qed.

Lemma step_invariant st arg st' :
  step st arg = Some st' -> P (ns_of st) -> P (ns_of st').
Proof.
  unfold step. destruct (String.eqb arg "--"); [discriminate|].
  destruct (classify arg) as [|o explicit| |]; try discriminate.
  - destruct (pending st) as [[o vs]|]; [|discriminate].
    destruct (can_take o vs); [|discriminate].
    intros H; inversion H; auto.
  - destruct (finish st) as [ns|] eqn:Hfin; [|discriminate].
    intros H Hok. pose proof (finish_invariant _ _ Hfin Hok) as Hns.
    destruct explicit as [value|].
    + destruct (nargs o); try discriminate;
        (destruct (apply_action ns o [value]) as [ns'|] eqn:Hact; [|discriminate];
         inversion H; subst; simpl; eapply P_action; eauto).
    + inversion H; subst; auto.
Qed.

Lemma parse_loop_invariant argv : forall st ns,
  parse_loop st argv = Some ns -> P (ns_of st) -> P ns.
Proof.
  induction argv as [|arg argv IH]; intros st ns; simpl.
  - apply finish_invariant.
  - destruct (step st arg) as [st'|] eqn:Hstep; [|discriminate].
    intros H Hok. eapply IH; eauto. eapply step_invariant; eauto.
Qed.

End Invariant.

(** *** Options that do not occur *)

Lemma same_dest_refl o ns : same_dest o ns ns.
Proof. destruct o; simpl; auto. Qed.

Lemma same_dest_trans o a b c :
  same_dest o a b -> same_dest o b c -> same_dest o a c.
Proof. destruct o; simpl; auto; intros; etransitivity; eauto. Qed.

Lemma apply_action_frame o o' ns vs ns' :
  apply_action ns o' vs = Some ns' -> o' <> o -> same_dest o ns' ns.
Proof.
  intros H Hne. inv_action; destruct o; simpl; auto; congruence.
Qed.

Lemma names_option_of_classify o arg o' explicit :
  classify arg = TOpt o' explicit ->
  names_option o arg = if Opt_eq_dec o' o then true else false.
Proof. unfold names_option. intros ->. reflexivity. Qed.

Lemma finish_frame o st ns :
  finish st = Some ns -> pending_is o st = false -> same_dest o ns (ns_of st).
Proof.
  unfold finish, pending_is. destruct (pending st) as [[o' vs]|].
  - intros H Hp. apply (apply_action_frame _ _ _ _ _ H).
    destruct (Opt_eq_dec o' o); [discriminate | assumption].
  - intros H _; inversion H. apply same_dest_refl.
Qed.

Lemma step_frame o st arg st' :
  step st arg = Some st' ->
  pending_is o st = false -> names_option o arg = false ->
  pending_is o st' = false /\ same_dest o (ns_of st') (ns_of st).
Proof.
  unfold step. destruct (String.eqb arg "--"); [discriminate|].
  destruct (classify arg) as [|o' explicit| |] eqn:Hcl; try discriminate.
  - destruct (pending st) as [[o' vs]|] eqn:Hp; [|discriminate].
    destruct (can_take o' vs); [|discriminate].
    intros H Hpend _; inversion H; subst; clear H.
    split; [|apply same_dest_refl].
    unfold pending_is in *. rewrite Hp in Hpend. simpl. exact Hpend.
  - rewrite (names_option_of_classify _ _ _ _ Hcl).
    destruct (Opt_eq_dec o' o) as [|Hne]; [discriminate|].
    destruct (finish st) as [ns|] eqn:Hfin; [|discriminate].
    intros H Hpend _. pose proof (finish_frame _ _ _ Hfin Hpend) as Hns.
    destruct explicit as [value|].
    + assert (Hact : exists ns', apply_action ns o' [value] = Some ns'
                                 /\ st' = {| ns_of := ns'; pending := None |}).
      { destruct (nargs o'); try discriminate;
          (destruct (apply_action ns o' [value]) as [ns'|]; [|discriminate];
           inversion H; eauto). }
      destruct Hact as (ns' & Hact & ->). simpl. split; [reflexivity|].
      eapply same_dest_trans; [|exact Hns].
      apply (apply_action_frame _ _ _ _ _ Hact Hne).
    + inversion H; subst; clear H. simpl. split; [|exact Hns].
      unfold pending_is. simpl. destruct (Opt_eq_dec o' o); congruence.
Qed.

Lemma parse_loop_frame o argv : forall st ns,
  parse_loop st argv = Some ns ->
  pending_is o st = false -> option_given o argv = false ->
  same_dest o ns (ns_of st).
Proof.
  induction argv as [|arg argv IH]; intros st ns; simpl.
  - intros H Hp _. apply finish_frame; assumption.
  - destruct (step st arg) as [st'|] eqn:Hstep; [|discriminate].
    intros H Hp Hgiven. apply orb_false_iff in Hgiven. destruct Hgiven as [Ha Hrest].
    destruct (step_frame _ _ _ _ Hstep Hp Ha) as [Hp' Heq].
    eapply same_dest_trans; [|exact Heq]. apply (IH _ _ H Hp' Hrest).
Qed.

(** X5.  An option that does not occur in the argument vector, in full or
    abbreviated, leaves its destination at the default. *)
Theorem absent_option_keeps_default o argv args :
  parse_args argv = Some args ->
  option_given o argv = false ->
  same_dest o args defaults.
Proof.
  intros Hparse Habsent.
  apply (parse_loop_frame o argv _ _ Hparse); [reflexivity | exact Habsent].
Qed.

(** *** The flags *)

Section Flag.

Variables (o : Opt) (obs : Namespace -> bool).
Hypothesis obs_set :
  forall ns vs ns', apply_action ns o vs = Some ns' -> obs ns' = true.
Hypothesis obs_kept :
  forall ns o' vs ns', apply_action ns o' vs = Some ns' -> o' <> o -> obs ns' = obs ns.

Lemma finish_flag st ns :
  finish st = Some ns -> obs ns = obs (ns_of st) || pending_is o st.
Proof.
  unfold finish, pending_is. destruct (pending st) as [[o' vs]|].
  - intros H. destruct (Opt_eq_dec o' o) as [->|Hne].
    + rewrite (obs_set _ _ _ H). now rewrite orb_true_r.
    + rewrite (obs_kept _ _ _ _ H Hne). now rewrite orb_false_r.
  - intros H; inversion H. now rewrite orb_false_r.
Qed.

Lemma step_flag st arg st' :
  step st arg = Some st' ->
  obs (ns_of st') || pending_is o st'
  = (obs (ns_of st) || pending_is o st) || names_option o arg.
Proof.
  unfold step. destruct (String.eqb arg "--"); [discriminate|].
  destruct (classify arg) as [|o' explicit| |] eqn:Hcl; try discriminate.
  - destruct (pending st) as [[o' vs]|] eqn:Hp; [|discriminate].
    destruct (can_take o' vs); [|discriminate].
    intros H; inversion H; subst; clear H.
    unfold names_option. rewrite Hcl, orb_false_r.
    unfold pending_is. simpl. rewrite Hp. reflexivity.
  - rewrite (names_option_of_classify _ _ _ _ Hcl).
    destruct (finish st) as [ns|] eqn:Hfin; [|discriminate].
    rewrite <- (finish_flag _ _ Hfin).
    destruct explicit as [value|].
    + intros H.
      assert (Hact : exists ns', apply_action ns o' [value] = Some ns'
                                 /\ st' = {| ns_of := ns'; pending := None |}).
      { destruct (nargs o'); try discriminate;
          (destruct (apply_action ns o' [value]) as [ns'|]; [|discriminate];
           inversion H; eauto). }
      destruct Hact as (ns' & Hact & ->).
      unfold pending_is. simpl. rewrite orb_false_r.
      destruct (Opt_eq_dec o' o) as [->|Hne].
      * rewrite (obs_set _ _ _ Hact). now rewrite orb_true_r.
      * rewrite (obs_kept _ _ _ _ Hact Hne). now rewrite orb_false_r.
    + intros H; inversion H; subst; clear H.
      unfold pending_is. simpl. reflexivity.
Qed.

Lemma parse_loop_flag argv : forall st ns,
  parse_loop st argv = Some ns ->
  obs ns = (obs (ns_of st) || pending_is o st) || option_given o argv.
Proof.
  induction argv as [|arg argv IH]; intros st ns; simpl.
  - intros H. rewrite (finish_flag _ _ H). now rewrite orb_false_r.
  - destruct (step st arg) as [st'|] eqn:Hstep; [|discriminate].
    intros H. rewrite (IH _ _ H), (step_flag _ _ _ Hstep).
    now rewrite orb_assoc.
Qed.

End Flag.

(** X6.  [skip_intrasentence] and [eraser_before_lang_adapt] are true
    exactly when their flag occurs in the argument vector. *)
Theorem flags_set_iff_given argv args :
  parse_args argv = Some args ->
  skip_intrasentence args = option_given OSkipIntrasentence argv /\
  eraser_before_lang_adapt args = option_given OEraserBeforeLangAdapt argv.
Proof.
  intros Hparse. unfold parse_args in Hparse. split.
  - rewrite (parse_loop_flag OSkipIntrasentence skip_intrasentence) with
      (argv := argv) (st := {| ns_of := defaults; pending := None |}); auto.
    + intros ns vs ns' H. destruct vs; simpl in H; inversion H. reflexivity.
    + intros ns o' vs ns' H Hne.
      exact (apply_action_frame OSkipIntrasentence _ _ _ _ H Hne).
  - rewrite (parse_loop_flag OEraserBeforeLangAdapt eraser_before_lang_adapt) with
      (argv := argv) (st := {| ns_of := defaults; pending := None |}); auto.
    + intros ns vs ns' H. destruct vs; simpl in H; inversion H. reflexivity.
    + intros ns o' vs ns' H Hne.
      exact (apply_action_frame OEraserBeforeLangAdapt _ _ _ _ H Hne).
Qed.

(** *** Argument vectors the parser refuses *)





(** *** The pretrained model name *)

Lemma pretrained_in_choices argv args :
  parse_args argv = Some args ->
  In (pretrained_model_name args) pretrained_choices.
Proof.
  intros Hparse.
  apply (parse_loop_invariant
           (fun ns => In (pretrained_model_name ns) pretrained_choices)
           ltac:(intros ns o vs ns' H Hp; inv_action; simpl; auto;
                 match goal with
                 | Hc : in_choices _ _ = true |- _ =>
                     apply in_choices_In in Hc; exact Hc
                 end)
           argv _ _ Hparse).
  simpl. auto.
Qed.

End ParserMore.


(** ** Strings and paths *)

Lemma split_nonempty sep s : split sep s <> [].
Proof.
  destruct s as [|c s]; simpl; [discriminate|].
  destruct (Ascii.eqb c sep); [discriminate|].
  destruct (split sep s); discriminate.
Qed.

Lemma split_without_sep sep s : contains sep s = false -> split sep s = [s].
Proof.
  induction s as [|c s IH]; simpl; [reflexivity|].
  intros H. apply orb_false_iff in H. destruct H as [Hc Hs].
  rewrite Hc, (IH Hs). reflexivity.
Qed.

Lemma split_app sep a b :
  split sep (a ++ String sep b) = (split sep a ++ split sep b)%list.
Proof.
  induction a as [|c a IH]; simpl.
  - rewrite Ascii.eqb_refl. reflexivity.
  - destruct (Ascii.eqb c sep); rewrite IH; [reflexivity|].
    pose proof (split_nonempty sep a) as Hne.
    destruct (split sep a); [congruence | reflexivity].
Qed.

Lemma contains_app c a b : contains c (a ++ b) = contains c a || contains c b.
Proof.
  induction a as [|x a IH]; simpl; [reflexivity|].
  rewrite IH. now rewrite orb_assoc.
Qed.

Lemma last_app_nonempty {A} (l1 l2 : list A) d :
  l2 <> [] -> last (l1 ++ l2) d = last l2 d.
Proof.
  intros Hne. induction l1 as [|x l1 IH]; simpl; [reflexivity|].
  rewrite IH. destruct (l1 ++ l2)%list eqn:Happ; [|reflexivity].
  apply app_eq_nil in Happ. destruct Happ; congruence.
Qed.

(** X8.  For a data file named [<stem>_<lang>.<ext>] in any directory,
    where no part holds a slash and [lang] and [ext] hold no underscore and
    [lang] no dot, the language [main] derives from the path is
    [lang]. *)
Theorem lang_of_data_file dir stem lang ext :
  contains "/" stem = false -> contains "/" lang = false ->
  contains "/" ext = false ->
  contains "_" lang = false -> contains "_" ext = false ->
  contains "." lang = false ->
  lang_of (dir ++ "/" ++ stem ++ "_" ++ lang ++ "." ++ ext) = lang.
Proof.
  intros Hs1 Hs2 Hs3 Hu1 Hu2 Hd.
  unfold lang_of. simpl append.
  rewrite (split_app "/" dir), (last_app_nonempty _ _ _ (split_nonempty _ _)).
  rewrite (split_without_sep "/")
    by (rewrite contains_app; simpl; rewrite contains_app; simpl;
        rewrite Hs1, Hs2, Hs3; reflexivity).
  simpl last.
  rewrite (split_app "_" stem), (last_app_nonempty _ _ _ (split_nonempty _ _)).
  rewrite (split_without_sep "_")
    by (rewrite contains_app; simpl; rewrite Hu1, Hu2; reflexivity).
  simpl last.
  rewrite (split_app "." lang), (split_without_sep "." lang Hd). reflexivity.
Qed.

(** The German intrasentence data of the repository layout. *)
Lemma lang_of_data_file_witness :
  lang_of "/repo/data/df_intrasentence_de.pkl" = "de".
Proof.
  exact (lang_of_data_file "/repo/data" "df_intrasentence" "de" "pkl"
           eq_refl eq_refl eq_refl eq_refl eq_refl eq_refl).
Defined.

Lemma prefix_app a b : String.prefix a (a ++ b) = true.
Proof.
  induction a as [|c a IH]; simpl; [destruct b; reflexivity|].
  destruct (ascii_dec c c); [exact IH | congruence].
Qed.

Lemma prefix_refl a : String.prefix a a = true.
Proof.
  induction a as [|c a IH]; simpl; [reflexivity|].
  destruct (ascii_dec c c); [exact IH | congruence].
Qed.

Lemma append_inv_head a b c : a ++ b = a ++ c -> b = c.
Proof.
  induction a as [|x a IH]; simpl; [auto|]. intros H; inversion H; auto.
Qed.

Lemma path_join_relative a b :
  String.prefix "/" b = false ->
  exists pre, path_join a b = pre ++ b /\ String.prefix a pre = true.
Proof.
  intros Hb. unfold path_join. rewrite Hb.
  destruct (String.eqb a EmptyString || ends_with_slash a).
  - exists a. split; [reflexivity | apply prefix_refl].
  - exists (a ++ "/"). split; [|apply prefix_app].
    rewrite append_assoc. reflexivity.
Qed.

Lemma prefix_trans_app a pre b :
  String.prefix a pre = true -> String.prefix a (pre ++ b) = true.
Proof.
  revert pre; induction a as [|c a IH]; intros pre; simpl.
  - intros _. destruct (pre ++ b); reflexivity.
  - destruct pre as [|c' pre]; simpl; [discriminate|].
    destruct (ascii_dec c c'); [apply IH | discriminate].
Qed.

Lemma path_join_inj a b c :
  String.prefix "/" b = false -> String.prefix "/" c = false ->
  path_join a b = path_join a c -> b = c.
Proof.
  intros Hb Hc. unfold path_join. rewrite Hb, Hc.
  destruct (String.eqb a EmptyString || ends_with_slash a); intros H.
  - eapply append_inv_head; eauto.
  - apply append_inv_head in H. simpl in H. inversion H. reflexivity.
Qed.


(** ** [main] *)

Section MainMore.

Context {RT : Runtime} {W : World}.

Ltac run_branch :=
  unfold instantiate, dump, call, bind, ret, outcome, trace, result; simpl;
  repeat match goal with
         | |- context [models_getattr ?n] =>
             destruct (models_getattr n) as [?cls|] eqn:?Hcls; simpl
         | |- context [match ?c ?w ?l ?e ?b with inl _ => _ | inr _ => _ end] =>
             destruct (c w l e b) as [?|?model] eqn:?Hmodel; simpl
         | |- context [IntrasentenceInferenceRunner_run ?a ?b ?c ?d ?e ?f ?g] =>
             destruct (IntrasentenceInferenceRunner_run a b c d e f g)
               as [?|?res] eqn:?Hrun; simpl
         | |- context [IntersentenceInferenceRunner_run ?a ?b ?c ?d ?e ?f ?g] =>
             destruct (IntersentenceInferenceRunner_run a b c d e f g)
               as [?|?res] eqn:?Hrun; simpl
         | |- context [json_dump ?p ?c] =>
             destruct (json_dump p c) eqn:?Hdump; simpl
         end.

Lemma bind_raises {A B} (m : M A) (f : A -> M B) e :
  result m = inl e -> bind m f = (trace m, inl e).
Proof.
  unfold result, trace, bind. destruct m as [t1 r]; simpl. intros ->. reflexivity.
Qed.

Lemma intersentence_branch_returns args tok locals locals' :
  skip_intersentence args = false ->
  result (intersentence_branch args tok locals) = inr locals' ->
  exists results,
    locals' = (Some (lang_of (intersentence_data_path_of args)),
               dict_set (snd locals) "intersentence" results) /\
    In (EDump (path_join (output_dir_of args)
                 (intersentence_file args (lang_of (intersentence_data_path_of args))))
              (DResults results))
       (trace (intersentence_branch args tok locals)).
Proof.
  unfold intersentence_branch. intros ->. simpl negb. cbv iota.
  run_branch; intros H; try discriminate.
  inversion H; subst. eexists. split; [reflexivity|]. simpl. auto.
Qed.

Lemma intrasentence_branch_returns' args tok locals locals' :
  skip_intrasentence args = false ->
  result (intrasentence_branch args tok locals) = inr locals' ->
  exists results,
    locals' = (Some (lang_of (intrasentence_data_path_of args)),
               dict_set (snd locals) "intrasentence" results) /\
    In (EDump (path_join (output_dir_of args)
                 (intrasentence_file args (lang_of (intrasentence_data_path_of args))))
              (DResults results))
       (trace (intrasentence_branch args tok locals)).
Proof.
  intros Hskip H.
  destruct (intrasentence_branch_returns _ _ _ _ Hskip H)
    as (cls & model & results & _ & _ & _ & -> & Htrace).
  exists results. split; [reflexivity|]. rewrite Htrace. simpl. auto.
Qed.

(** The files [main] writes. *)
Lemma main_dump_paths args path content :
  In (EDump path content) (trace (main args)) ->
  exists lang file,
    path = path_join (output_dir_of args) file /\
    (file = intrasentence_file args lang \/
     file = intersentence_file args lang \/
     file = combined_file args lang).
Proof.
  intros Hin. apply main_events in Hin.
  destruct Hin as [H | [H | [(tok & loc & H) | [(tok & loc & H) | (lang & d & H & _)]]]];
    try discriminate.
  - apply intrasentence_branch_events in H.
    destruct H as [_ [H | [H | [H | (r & H)]]]]; inversion H; subst. eauto 6.
  - apply intersentence_branch_events in H.
    destruct H as [_ [H | [H | [H | (r & H)]]]]; inversion H; subst. eauto 6.
  - inversion H; subst. eauto 6.
Qed.

Lemma output_files_relative args lang :
  String.prefix "/" (intrasentence_file args lang) = false /\
  String.prefix "/" (intersentence_file args lang) = false /\
  String.prefix "/" (combined_file args lang) = false.
Proof. repeat split; reflexivity. Qed.

(** X9.  Every JSON file [main] writes has a path that starts with the
    output directory, the one [main] created first. *)
Theorem dumps_under_output_dir args path content :
  In (EDump path content) (trace (main args)) ->
  String.prefix (output_dir_of args) path = true.
Proof.
  intros Hin. destruct (main_dump_paths _ _ _ Hin) as (lang & file & -> & Hfile).
  assert (Hrel : String.prefix "/" file = false).
  { destruct (output_files_relative args lang) as (H1 & H2 & H3).
    destruct Hfile as [-> | [-> | ->]]; assumption. }
  destruct (path_join_relative (output_dir_of args) file Hrel) as (pre & -> & Hpre).
  apply prefix_trans_app. exact Hpre.
Qed.

(** X10.  The intrasentence file, the intersentence file and the
    combined-results file of a run are three different paths, whatever
    the arguments and the languages: no write of a run replaces
    another. *)
Theorem output_files_distinct args lang1 lang2 lang3 :
  path_join (output_dir_of args) (intrasentence_file args lang1)
  <> path_join (output_dir_of args) (intersentence_file args lang2) /\
  path_join (output_dir_of args) (intrasentence_file args lang1)
  <> path_join (output_dir_of args) (combined_file args lang3) /\
  path_join (output_dir_of args) (intersentence_file args lang2)
  <> path_join (output_dir_of args) (combined_file args lang3).
Proof.
  repeat split; intros H; apply path_join_inj in H;
    try reflexivity; unfold intrasentence_file, intersentence_file, combined_file in H;
    simpl in H; discriminate.
Qed.

(** What has happened when [main] reaches its last statement. *)
Lemma main_reaches_end args path d :
  In (EDump path (DDict d)) (trace (main args)) ->
  exists tok locals1 locals2 lang,
    result (intrasentence_branch args tok (None, [])) = inr locals1 /\
    result (intersentence_branch args tok locals1) = inr locals2 /\
    fst locals2 = Some lang /\
    d = snd locals2 /\
    path = path_join (output_dir_of args) (combined_file args lang) /\
    trace (main args)
    = ([EMakedirs (output_dir_of args);
        EFromPretrained (pretrained_model_name args)]
       ++ trace (intrasentence_branch args tok (None, []))
       ++ trace (intersentence_branch args tok locals1)
       ++ [EDump path (DDict d)])%list.
Proof.
  unfold main. intros Hin.
  set (m1 := call (EMakedirs (output_dir_of args))
               (outcome (os_makedirs (output_dir_of args)))) in *.
  destruct (result m1) as [e|u] eqn:Hm1.
  { rewrite (bind_raises _ _ _ Hm1) in Hin. destruct Hin as [H|[]]; discriminate. }
  rewrite (bind_inr _ _ _ Hm1) in *.
  set (m2 := call (EFromPretrained (pretrained_model_name args))
               (from_pretrained (pretrained_model_name args))) in *.
  destruct (result m2) as [e|tok] eqn:Hm2.
  { rewrite (bind_raises _ _ _ Hm2) in Hin.
    unfold trace in Hin. simpl in Hin.
    destruct Hin as [H|[H|[]]]; discriminate. }
  rewrite (bind_inr _ _ _ Hm2) in *.
  destruct (result (intrasentence_branch args tok (None, []))) as [e|locals1] eqn:H1.
  { rewrite (bind_raises _ _ _ H1) in Hin.
    unfold trace at 1 2 in Hin. simpl in Hin.
    destruct Hin as [H|[H|H]]; try discriminate.
    apply intrasentence_branch_events in H.
    destruct H as [_ [H | [H | [H | (r & H)]]]]; discriminate. }
  rewrite (bind_inr _ _ _ H1) in *.
  destruct (result (intersentence_branch args tok locals1)) as [e|locals2] eqn:H2.
  { rewrite (bind_raises _ _ _ H2) in Hin.
    unfold trace at 1 2 3 in Hin. simpl in Hin.
    destruct Hin as [H|[H|H]]; try discriminate.
    apply in_app_or in H. destruct H as [H|H].
    - apply intrasentence_branch_events in H.
      destruct H as [_ [H | [H | [H | (r & H)]]]]; discriminate.
    - apply intersentence_branch_events in H.
      destruct H as [_ [H | [H | [H | (r & H)]]]]; discriminate. }
  rewrite (bind_inr _ _ _ H2) in *.
  unfold trace at 1 2 3 4 in Hin. simpl in Hin.
  unfold trace at 1 2 3 4. simpl fst.
  destruct Hin as [H|[H|H]]; try discriminate.
  apply in_app_or in H. destruct H as [H|H].
  { apply intrasentence_branch_events in H.
    destruct H as [_ [H | [H | [H | (r & H)]]]]; discriminate. }
  apply in_app_or in H. destruct H as [H|H].
  { apply intersentence_branch_events in H.
    destruct H as [_ [H | [H | [H | (r & H)]]]]; discriminate. }
  destruct (fst locals2) as [lang|] eqn:Hlang; [|destruct H].
  destruct H as [H|[]]. inversion H; subst.
  exists tok, locals1, locals2, lang. repeat split; auto.
Qed.

(** X11.  When [main] writes the combined-results file, the dictionary in
    it has exactly one entry for each branch that was not skipped,
    [intrasentence] before [intersentence], and each entry is what [main]
    wrote to that branch's own file. *)
Theorem combined_results_contents args path d :
  In (EDump path (DDict d)) (trace (main args)) ->
  exists r1 r2,
    d = ((if skip_intrasentence args then [] else [("intrasentence", r1)])
         ++ (if skip_intersentence args then [] else [("intersentence", r2)]))%list /\
    (skip_intrasentence args = false ->
     In (EDump (path_join (output_dir_of args)
                  (intrasentence_file args (lang_of (intrasentence_data_path_of args))))
               (DResults r1))
        (trace (main args))) /\
    (skip_intersentence args = false ->
     In (EDump (path_join (output_dir_of args)
                  (intersentence_file args (lang_of (intersentence_data_path_of args))))
               (DResults r2))
        (trace (main args))).
Proof.
  intros Hin.
  destruct (main_reaches_end _ _ _ Hin)
    as (tok & locals1 & locals2 & lang & H1 & H2 & Hlang & -> & _ & ->).
  destruct (skip_intrasentence args) eqn:Hs1;
    destruct (skip_intersentence args) eqn:Hs2.
  - rewrite (intrasentence_branch_skipped _ _ _ Hs1) in H1.
    rewrite (intersentence_branch_skipped _ _ _ Hs2) in H2.
    unfold ret, result in H1, H2. simpl in H1, H2.
    inversion H1; subst. inversion H2; subst. discriminate.
  - rewrite (intrasentence_branch_skipped _ _ _ Hs1) in H1.
    unfold ret, result in H1. simpl in H1. inversion H1; subst.
    destruct (intersentence_branch_returns _ _ _ _ Hs2 H2) as (r2 & -> & Hd2).
    exists r2, r2. split; [reflexivity|]. split; [discriminate|].
    intros _. right. right. cbn [app]. apply in_or_app. right. apply in_or_app. left. exact Hd2.
  - destruct (intrasentence_branch_returns' _ _ _ _ Hs1 H1) as (r1 & -> & Hd1).
    rewrite (intersentence_branch_skipped _ _ _ Hs2) in H2.
    unfold ret, result in H2. simpl in H2. inversion H2; subst.
    exists r1, r1. split; [reflexivity|]. split; [|discriminate].
    intros _. right. right. cbn [app]. apply in_or_app. left. exact Hd1.
  - destruct (intrasentence_branch_returns' _ _ _ _ Hs1 H1) as (r1 & -> & Hd1).
    destruct (intersentence_branch_returns _ _ _ _ Hs2 H2) as (r2 & -> & Hd2).
    exists r1, r2. split; [reflexivity|]. split; intros _.
    + right. right. cbn [app]. apply in_or_app. left. exact Hd1.
    + right. right. cbn [app]. apply in_or_app. right. apply in_or_app. left. exact Hd2.
Qed.

(** X12.  The language in the name of the combined-results file is the one
    of the intersentence data whenever the intersentence branch ran, and
    the one of the intrasentence data only when it did not: the second
    branch overwrites [lang]. *)
Theorem combined_file_language args path d :
  In (EDump path (DDict d)) (trace (main args)) ->
  path = path_join (output_dir_of args)
           (combined_file args
              (if skip_intersentence args
               then lang_of (intrasentence_data_path_of args)
               else lang_of (intersentence_data_path_of args))).
Proof.
  intros Hin.
  destruct (main_reaches_end _ _ _ Hin)
    as (tok & locals1 & locals2 & lang & H1 & H2 & Hlang & _ & -> & _).
  destruct (skip_intersentence args) eqn:Hs2.
  - rewrite (intersentence_branch_skipped _ _ _ Hs2) in H2.
    unfold ret, result in H2. simpl in H2. inversion H2; subst.
    destruct (skip_intrasentence args) eqn:Hs1.
    + rewrite (intrasentence_branch_skipped _ _ _ Hs1) in H1.
      unfold ret, result in H1. simpl in H1. inversion H1; subst. discriminate.
    + destruct (intrasentence_branch_returns' _ _ _ _ Hs1 H1) as (r1 & -> & _).
      simpl in Hlang. inversion Hlang. reflexivity.
  - destruct (intersentence_branch_returns _ _ _ _ Hs2 H2) as (r2 & -> & _).
    simpl in Hlang. inversion Hlang. reflexivity.
Qed.

(** With both branches skipped [main] does not return and writes nothing. *)
Lemma main_skipped_never_returns args :
  skip_intrasentence args = true -> skip_intersentence args = true ->
  (forall u, result (main args) <> inr u) /\
  (forall path content, ~ In (EDump path content) (trace (main args))).
Proof.
  intros Hs1 Hs2. split.
  - intros u Hres. unfold main in Hres.
    apply result_bind_inr in Hres. destruct Hres as (? & _ & Hres).
    apply result_bind_inr in Hres. destruct Hres as (tok & _ & Hres).
    rewrite (intrasentence_branch_skipped _ _ _ Hs1) in Hres.
    apply result_bind_inr in Hres. destruct Hres as (l1 & H1 & Hres).
    rewrite (intersentence_branch_skipped _ _ _ Hs2) in Hres.
    apply result_bind_inr in Hres. destruct Hres as (l2 & H2 & Hres).
    unfold ret, result in H1, H2. simpl in H1, H2.
    inversion H1; subst. inversion H2; subst. discriminate.
  - intros path content Hin. apply main_events in Hin.
    destruct Hin as [H | [H | [(tok & l & H) | [(tok & l & H) | (lang & d & _ & H)]]]];
      try discriminate.
    + apply intrasentence_branch_events in H. destruct H; congruence.
    + apply intersentence_branch_events in H. destruct H; congruence.
    + destruct H; congruence.
Qed.

(** X13.  Whatever the argument vector, the tokenizer is loaded under
    [bert-base-uncased] or [ZurichNLP/swissbert-xlm-vocab], also when the
    model weights come from a checkpoint. *)
Theorem tokenizer_name_in_choices argv args name :
  parse_args argv = Some args ->
  In (EFromPretrained name) (trace (main args)) ->
  name = pretrained_model_name args /\ In name pretrained_choices.
Proof.
  intros Hparse Hin.
  assert (name = pretrained_model_name args) as ->.
  { apply main_events in Hin.
    destruct Hin as [H | [H | [(tok & l & H) | [(tok & l & H) | (lang & d & H & _)]]]];
      try discriminate.
    - inversion H. reflexivity.
    - apply intrasentence_branch_events in H.
      destruct H as [_ [H | [H | [H | (r & H)]]]]; discriminate.
    - apply intersentence_branch_events in H.
      destruct H as [_ [H | [H | [H | (r & H)]]]]; discriminate. }
  split; [reflexivity|]. eapply pretrained_in_choices; eauto.
Qed.

(** X15.  A run from the command line in which intrasentence inference is
    not skipped and [main] returns makes exactly seven calls: the output
    directory, the tokenizer, the class lookup, the model, the
    intrasentence runner, the intrasentence file, and the combined file,
    whose dictionary holds the intrasentence results alone. *)
Theorem command_line_run_calls argv args :
  parse_args argv = Some args ->
  skip_intrasentence args = false ->
  result (main args) = inr tt ->
  exists results,
    trace (main args)
    = [EMakedirs (output_dir_of args);
       EFromPretrained (pretrained_model_name args);
       EGetattr (intrasentence_model args);
       EConstruct (intrasentence_model args)
         (str_or (ckpt_path args) (pretrained_model_name args))
         (lang_of (intrasentence_data_path_of args))
         (eraser_path_list_of args) (eraser_before_lang_adapt args);
       ERunIntrasentence (intrasentence_data_path_of args)
         (pretrained_model_name args) (batch_size args)
         (tiny_eval_frac args) (softmax_temperature args);
       EDump (path_join (output_dir_of args)
                (intrasentence_file args (lang_of (intrasentence_data_path_of args))))
             (DResults results);
       EDump (path_join (output_dir_of args)
                (combined_file args (lang_of (intrasentence_data_path_of args))))
             (DDict [("intrasentence", results)])].
Proof.
  intros Hparse Hskip Hres.
  pose proof (parse_args_ok _ _ Hparse) as (Hinter & _).
  unfold main in *.
  apply result_bind_inr in Hres. destruct Hres as (u & Hmk & Hres).
  rewrite (bind_inr _ _ _ Hmk), trace_call.
  apply result_bind_inr in Hres. destruct Hres as (tok & Htok & Hres).
  rewrite (bind_inr _ _ _ Htok), trace_call.
  apply result_bind_inr in Hres. destruct Hres as (locals1 & H1 & Hres).
  rewrite (bind_inr _ _ _ H1).
  destruct (intrasentence_branch_returns _ _ _ _ Hskip H1)
    as (cls & model & results & _ & _ & _ & -> & Htrace).
  rewrite (intersentence_branch_skipped _ _ _ Hinter).
  exists results. unfold trace at 1. simpl fst. rewrite Htrace. reflexivity.
Qed.

End MainMore.

(** ** The script *)

Section ScriptMore.

Context {RT : Runtime} {W : World} {L : LoggingLib}.

(** X14.  Started with [--skip-intrasentence], in full or abbreviated, the
    script never ends normally and writes no JSON file: the parser leaves
    [skip_intersentence] set, so [main] runs no branch. *)
Theorem script_skip_intrasentence_fails argv calls outcome_ :
  script argv = Some (calls, outcome_) ->
  option_given OSkipIntrasentence argv = true ->
  (forall u, outcome_ <> inr u) /\
  (forall path content, ~ In (SMain (EDump path content)) calls).
Proof.
  unfold script. intros Hscript Hflag.
  destruct (parse_args argv) as [args|] eqn:Hparse; [|discriminate].
  pose proof (parse_args_ok _ _ Hparse) as (Hinter & _).
  assert (Hintra : skip_intrasentence args = true).
  { unfold parse_args in Hparse.
    rewrite (parse_loop_flag OSkipIntrasentence skip_intrasentence) with
      (argv := argv) (st := {| ns_of := defaults; pending := None |});
      [rewrite Hflag; apply orb_true_r | | | exact Hparse].
    - intros ns vs ns' H. destruct vs; simpl in H; inversion H. reflexivity.
    - intros ns o' vs ns' H Hne.
      exact (apply_action_frame OSkipIntrasentence _ _ _ _ H Hne). }
  destruct (main_skipped_never_returns args Hintra Hinter) as (Hnever & Hnofile).
  destruct (os_makedirs (logging_dir_of args)).
  { inversion Hscript; subst. split; [discriminate|].
    intros path content [H|[]]; discriminate. }
  destruct (logging_basicConfig _).
  { inversion Hscript; subst. split; [discriminate|].
    intros path content [H|[H|[]]]; discriminate. }
  inversion Hscript; subst. split; [exact Hnever|].
  intros path content [H|[H|H]]; try discriminate.
  apply in_map_iff in H. destruct H as (ev & Hev & Hin).
  inversion Hev; subst. exact (Hnofile _ _ Hin).
Qed.

End ScriptMore.


(** ** The statements on the small world *)

(** [--output-dir] does not occur next to [--batch-size 8]. *)
Lemma absent_option_keeps_default_witness :
  exists args,
    @parse_args toy_runtime ["--batch-size"; "8"] = Some args /\
    output_dir args = None /\ batch_size args = 8%Z.
Proof.
  exists (set_batch_size (@defaults toy_runtime) 8%Z).
  split; [reflexivity|]. split; [|reflexivity].
  exact (@absent_option_keeps_default toy_runtime OOutputDir
           ["--batch-size"; "8"] (set_batch_size defaults 8%Z) eq_refl eq_refl).
Defined.

(** The abbreviated flag [--skip-intra]. *)
Lemma flags_set_iff_given_witness :
  exists args,
    @parse_args toy_runtime ["--skip-intra"] = Some args /\
    skip_intrasentence args = true /\ eraser_before_lang_adapt args = false.
Proof.
  exists (set_skip_intrasentence (@defaults toy_runtime) true).
  split; [reflexivity|].
  exact (@flags_set_iff_given toy_runtime ["--skip-intra"]
           (set_skip_intrasentence defaults true) eq_refl).
Defined.


(** The intrasentence file of the default run. *)
Lemma dumps_under_output_dir_witness :
  String.prefix "/repo/inference_output"
    "/repo/inference_output/intrasentence_BertForMLM_en.json" = true.
Proof.
  apply (@dumps_under_output_dir toy_runtime toy_world defaults
           "/repo/inference_output/intrasentence_BertForMLM_en.json"
           (DResults (toy_results "/repo/data/df_intrasentence_en.pkl"))).
  do 5 right. left. reflexivity.
Defined.

(** The default run writes one entry. *)
Lemma combined_results_contents_witness :
  exists r1,
    [("intrasentence", toy_results "/repo/data/df_intrasentence_en.pkl")]
    = [("intrasentence", r1)] /\
    In (EDump "/repo/inference_output/intrasentence_BertForMLM_en.json" (DResults r1))
       (fst (toy_main defaults)).
Proof.
  destruct (@combined_results_contents toy_runtime toy_world defaults
              "/repo/inference_output/combined_results_BertForMLM_en.json"
              [("intrasentence", toy_results "/repo/data/df_intrasentence_en.pkl")])
    as (r1 & r2 & Hd & Hintra & _).
  - do 6 right. left. reflexivity.
  - exists r1. split; [exact Hd | exact (Hintra eq_refl)].
Defined.

(** The default run names the combined file after the intrasentence data. *)
Lemma combined_file_language_witness :
  "/repo/inference_output/combined_results_BertForMLM_en.json"
  = path_join "/repo/inference_output"
      ("combined_results_BertForMLM_" ++ lang_of "/repo/data/df_intrasentence_en.pkl"
       ++ ".json").
Proof.
  apply (@combined_file_language toy_runtime toy_world defaults
           "/repo/inference_output/combined_results_BertForMLM_en.json"
           [("intrasentence", toy_results "/repo/data/df_intrasentence_en.pkl")]).
  do 6 right. left. reflexivity.
Defined.

(** The tokenizer of a run with a checkpoint. *)
Lemma tokenizer_name_in_choices_witness :
  exists args,
    @parse_args toy_runtime ["--ckpt-path"; "/tmp/debiased"] = Some args /\
    In "bert-base-uncased" pretrained_choices.
Proof.
  exists (set_ckpt_path (@defaults toy_runtime) (Some "/tmp/debiased")).
  split; [reflexivity|].
  refine (proj2 (@tokenizer_name_in_choices toy_runtime toy_world
                   ["--ckpt-path"; "/tmp/debiased"]
                   (set_ckpt_path defaults (Some "/tmp/debiased"))
                   "bert-base-uncased" eq_refl _)).
  right. left. reflexivity.
Defined.

(** The script started with the flag alone. *)
Lemma script_skip_intrasentence_fails_witness :
  exists calls,
    toy_script ["--skip-intrasentence"]
    = Some (calls, inl (UnboundLocalError "lang")) /\
    forall path content, ~ In (SMain (EDump path content)) calls.
Proof.
  eexists. split; [reflexivity|].
  exact (proj2 (@script_skip_intrasentence_fails toy_runtime toy_world toy_logging
                  ["--skip-intrasentence"] _ _ eq_refl eq_refl)).
Defined.

(** The default run. *)
Lemma command_line_run_calls_witness :
  exists results,
    fst (toy_main defaults)
    = [EMakedirs "/repo/inference_output";
       EFromPretrained "bert-base-uncased";
       EGetattr "BertForMLM";
       EConstruct "BertForMLM" "bert-base-uncased" "en" None false;
       ERunIntrasentence "/repo/data/df_intrasentence_en.pkl" "bert-base-uncased"
         16 None (toy_float "1.0");
       EDump "/repo/inference_output/intrasentence_BertForMLM_en.json"
         (DResults results);
       EDump "/repo/inference_output/combined_results_BertForMLM_en.json"
         (DDict [("intrasentence", results)])].
Proof.
  exact (@command_line_run_calls toy_runtime toy_world [] defaults
           eq_refl eq_refl eq_refl).
Defined.

End InferenceMore.
